(** * torchgpipe.skip.skippable: skip connections between pipeline stages

    A shallow embedding of [torchgpipe/skip/skippable.py]: the skippable
    wrapper ([Skippable]), its namespace table and [isolate], the command
    dispatcher ([dispatch]), the per-call bookkeeping of [forward], and the
    whole-pipeline verifier [verify_skippables]. *)

From stdpp Require Import gmap strings list fin_maps pretty.

#[local] Set Warnings "-clear-no-such-hyp".

(** ** Data model *)

(** Modelled from the spec: [torchgpipe.skip.namespace.Namespace] is not part
    of the sources at hand.  The spec describes it as an opaque token that is
    compared by identity; the token is the identity. *)
Definition Namespace : Type := positive.

(** [namespaced] returns [self.namespaces.get(name)], which is [None] for a
    name that was never isolated ([cast] does nothing at run time), so the
    first component of a key is an optional namespace. *)
Definition SkipKey : Type := option Namespace * string.

Section Skippable.

Context {Tensor Args : Type}.

(** [TensorOrTensors = Union[Tensor, Tuple[Tensor, ...]]]. *)
Inductive TensorOrTensors : Type :=
  | OneTensor (t : Tensor)
  | Tensors (ts : list Tensor).

(** Any object that is neither a [stash] nor a [pop].  Only its [repr]
    matters, and whether it is a tuple: a tuple is given by the [repr]s of
    its items, as [%] takes a tuple for the list of its arguments. *)
Inductive Object : Type :=
  | NotTuple (repr : string)
  | Tuple (items : list string).

(** What a suspended computation yields: a [stash], a [pop], or any other
    object. *)
Inductive Command : Type :=
  | stash (name : string) (tensor : option Tensor)
  | pop (name : string)
  | other (op : Object).

(** A generator of type [Generator[StashPop, Optional[Tensor],
    TensorOrTensors]] that finishes after finitely many [yield]s: it has
    either finished with a value ([StopIteration(value)]) or is suspended at
    a [yield] and waits to be resumed with the value sent in ([next] sends
    [None]).  Exceptions raised by the wrapped module itself are left out. *)
Inductive StashPopGenerator : Type :=
  | Return (output : TensorOrTensors)
  | Yield (op : Command) (resume : option Tensor → StashPopGenerator).

(** The result of [self.module(input)]: a plain output, or a generator. *)
Inductive ModuleResult : Type :=
  | Output (output : TensorOrTensors)
  | Generated (generator : StashPopGenerator).

Definition SkippableModule : Type := TensorOrTensors → ModuleResult.

(** The class made by [skippable(stash, pop)(module_cls)]: the three class
    variables of a [Skippable] subclass. *)
Record SkippableClass : Type := {
  module_cls : Args → SkippableModule;
  stashable_names : gset string;
  poppable_names : gset string;
}.

Definition skippable (stash pop : list string)
    (module_cls : Args → SkippableModule) : SkippableClass :=
  {| module_cls := module_cls;
     stashable_names := list_to_set stash;
     poppable_names := list_to_set pop |}.

(** An instance: its class, and the two attributes set by [__init__]. *)
Record Skippable : Type := {
  class_of : SkippableClass;
  module : SkippableModule;
  namespaces : gmap string Namespace;
}.

(** [Skippable.__init__]. *)
Definition init (cls : SkippableClass) (args : Args) : Skippable :=
  {| class_of := cls;
     module := module_cls cls args;
     namespaces := ∅ |}.

(** [Skippable.namespaced]. *)
Definition namespaced (self : Skippable) (name : string) : SkipKey :=
  let ns := namespaces self !! name in
  (ns, name).

(** [Skippable.stashable] and [Skippable.poppable].  A [frozenset] is
    iterated in an order that Python leaves unspecified; [elements] fixes
    one. *)
Definition stashable (self : Skippable) : list SkipKey :=
  namespaced self <$> elements (stashable_names (class_of self)).

Definition poppable (self : Skippable) : list SkipKey :=
  namespaced self <$> elements (poppable_names (class_of self)).

End Skippable.

Arguments TensorOrTensors : clear implicits.
Arguments Command : clear implicits.
Arguments StashPopGenerator : clear implicits.
Arguments ModuleResult : clear implicits.
Arguments SkippableModule : clear implicits.
Arguments SkippableClass : clear implicits.
Arguments Skippable : clear implicits.

(** ** Exceptions and effects *)

(** The exceptions this module raises or lets through. *)
Inductive Exn : Type :=
  | RuntimeError (msg : string)
  | TypeError (msg : string)
  | KeyError (name : string).

Inductive Result (A : Type) : Type :=
  | Ok (a : A)
  | Raise (e : Exn).
Arguments Ok {A} a.
Arguments Raise {A} e.

(** A computation over a mutable store [S] that returns or raises; the
    store it leaves behind is kept also when it raises. *)
Definition M (S A : Type) : Type := S → Result A * S.

Definition ret {S A} (a : A) : M S A := λ s, (Ok a, s).
Definition raise {S A} (e : Exn) : M S A := λ s, (Raise e, s).
Definition bind {S A B} (c : M S A) (k : A → M S B) : M S B :=
  λ s, match c s with
       | (Ok a, s') => k a s'
       | (Raise e, s') => (Raise e, s')
       end.

Notation "'do' x <- c ; k" := (bind c (λ x, k))
  (at level 10, x name, c at level 100, k at level 200).
Notation "'do' ' p <- c ; k" := (bind c (λ x, match x with p => k end))
  (at level 10, p pattern, c at level 100, k at level 200).

(** Python's [', '.join(...)] and ['\n'.join(...)]. *)
Definition join (sep : string) (xs : list string) : string :=
  String.concat sep xs.

Definition newline : string := String (Ascii.ascii_of_nat 10) EmptyString.

(** [msg] contains [x] as a substring. *)
Definition mentions (x msg : string) : Prop :=
  ∃ pre post, msg = pre +:+ x +:+ post.

Fixpoint starts_with (x msg : string) : bool :=
  match x, msg with
  | EmptyString, _ => true
  | String a x', String b msg' => bool_decide (a = b) && starts_with x' msg'
  | String _ _, EmptyString => false
  end.

Fixpoint contains (x msg : string) : bool :=
  starts_with x msg ||
  match msg with
  | EmptyString => false
  | String _ msg' => contains x msg'
  end.

(** ** Instances as objects: [__init__] and [isolate]

    [isolate] mutates the instance and returns it, so instances live in a
    heap and are passed around by reference. *)

Abbreviation ref := positive.

Section Objects.

Context {Tensor Args : Type}.

#[local] Abbreviation Skippable := (Skippable Tensor Args).
#[local] Abbreviation SkippableClass := (SkippableClass Tensor Args).

#[local] Abbreviation Heap := (gmap ref Skippable).

(** Calling the class: a new object, at a reference not in use, set up by
    [__init__]. *)
Definition new (cls : SkippableClass) (args : Args) (h : Heap) : ref * Heap :=
  let self := fresh (dom h) in
  (self, <[self := init cls args]> h).

(** [self.namespaces[name] = ns]. *)
Definition set_namespace (ns : Namespace) (self : Skippable) (name : string)
    : Skippable :=
  {| class_of := class_of self;
     module := module self;
     namespaces := <[name := ns]> (namespaces self) |}.

(** The [names] that [isolate] goes through. *)
Definition isolated_names (self : Skippable) (only : option (list string))
    : gset string :=
  match only with
  | None => stashable_names (class_of self) ∪ poppable_names (class_of self)
  | Some only => list_to_set only
  end.

(** The body of [isolate], on the state of [self]. *)
Definition isolate_self (ns : Namespace) (only : option (list string))
    (self : Skippable) : Skippable :=
  let names := isolated_names self only in
  foldl (set_namespace ns) self (elements names).

(** [Skippable.isolate]: updates the object behind [self], returns [self]. *)
Definition isolate (self : ref) (ns : Namespace) (only : option (list string))
    (h : Heap) : ref * Heap :=
  (self, alter (isolate_self ns only) self h).

(** The states of an instance on which [isolate] was never called for
    [name]: as [__init__] left it, or after calls of [isolate] that went
    through other names only. *)
Inductive never_isolated (name : string) : Skippable → Prop :=
  | as_initialised cls args : never_isolated name (init cls args)
  | isolated_elsewhere self ns only :
      never_isolated name self →
      name ∉ isolated_names self only →
      never_isolated name (isolate_self ns only self).

End Objects.

(** ** The skip tracker *)

Section Tracker.

Context {Tensor : Type}.

(** Modelled from the spec: [torchgpipe.microbatch.Batch] is not part of the
    sources at hand.  The spec describes it as a thin wrapper around the
    value, or tuple of values, at a stage boundary. *)
Record Batch : Type := { tensor_or_tensors : TensorOrTensors Tensor }.

(** The two operations [forward] uses of the object returned by
    [current_skip_tracker()], over the tracker's state [T]. *)
Class SkipTracker (T : Type) : Type := {
  load : Batch → option Namespace → string → M T (option Tensor);
  save : Batch → option Namespace → string → option Tensor → M T unit;
}.

(** Modelled from the spec: [torchgpipe.skip.tracker.SkipTracker] is not part
    of the sources at hand.  The spec describes it as a mapping from
    (namespace, name) to a value that may be absent; [save] inserts or
    overwrites the slot, [load] removes and returns the slot and fails when
    the key is not there. *)
#[local] Abbreviation MapTracker := (gmap SkipKey (option Tensor)).

Definition map_load (batch : Batch) (ns : option Namespace) (name : string)
    : M MapTracker (option Tensor) :=
  λ tensors,
    match tensors !! (ns, name) with
    | Some tensor => (Ok tensor, delete (ns, name) tensors)
    | None => (Raise (KeyError name), tensors)
    end.

Definition map_save (batch : Batch) (ns : option Namespace) (name : string)
    (tensor : option Tensor) : M MapTracker unit :=
  λ tensors, (Ok tt, <[(ns, name) := tensor]> tensors).

#[export] Instance map_tracker : SkipTracker MapTracker :=
  {| load := map_load; save := map_save |}.

End Tracker.

Arguments Batch : clear implicits.
Arguments SkipTracker : clear implicits.

(** ** Dispatch and forward *)

Section Forward.

Context {Tensor Args : Type}.

#[local] Abbreviation Skippable := (Skippable Tensor Args).
#[local] Abbreviation TensorOrTensors := (TensorOrTensors Tensor).
#[local] Abbreviation StashPopGenerator := (StashPopGenerator Tensor).

(** [raise TypeError('%r is not a command from @skippable' % op)]: the
    format has one [%r] to fill.  An [op] that is not a tuple fills it; a
    tuple is unpacked, so that only a tuple of one item fills it (with that
    item), and with any other tuple the [%] itself raises [TypeError]. *)
Definition not_a_command (op : Object) : Exn :=
  match op with
  | NotTuple repr
  | Tuple [repr] => TypeError (repr +:+ " is not a command from @skippable")
  | Tuple [] => TypeError "not enough arguments for format string"
  | Tuple (_ :: _ :: _) =>
      TypeError "not all arguments converted during string formatting"
  end.

(** The [try] block of [dispatch]: the handlers act on a store [St] of
    their own. *)
Fixpoint dispatch_loop {St : Type}
    (handle_stash : string → option Tensor → M St unit)
    (handle_pop : string → M St (option Tensor))
    (generator : StashPopGenerator) : M St TensorOrTensors :=
  match generator with
  | Return output => ret output
  | Yield (stash name tensor) resume =>
      do _ <- handle_stash name tensor;
      dispatch_loop handle_stash handle_pop (resume None)
  | Yield (pop name) resume =>
      do tensor <- handle_pop name;
      dispatch_loop handle_stash handle_pop (resume tensor)
  | Yield (other op) _ => raise (not_a_command op)
  end.

(** [Skippable.dispatch]. *)
Definition dispatch {St : Type} (self : Skippable) (input : TensorOrTensors)
    (handle_stash : string → option Tensor → M St unit)
    (handle_pop : string → M St (option Tensor)) : M St TensorOrTensors :=
  match module self input with
  | Output output => ret output
  | Generated generator => dispatch_loop handle_stash handle_pop generator
  end.

(** The two dictionaries local to a call of [forward], which its handlers
    close over: [stashed_tensors] and [poppable_tensors]. *)
Record Locals : Type := {
  stashed_tensors : gmap string (option Tensor);
  poppable_tensors : gmap string (option Tensor);
}.

(** ["'%s'" % n]. *)
Definition quote (n : string) : string := "'" +:+ n +:+ "'".

Definition handle_stash (self : Skippable) (name : string)
    (tensor : option Tensor) : M Locals unit :=
  λ l,
    if decide (name ∈ stashable_names (class_of self)) then
      (Ok tt, {| stashed_tensors := <[name := tensor]> (stashed_tensors l);
                 poppable_tensors := poppable_tensors l |})
    else
      (Raise (RuntimeError
                (quote name +:+ " has not been declared as stashable")), l).

Definition handle_pop (self : Skippable) (name : string)
    : M Locals (option Tensor) :=
  λ l,
    if decide (name ∈ poppable_names (class_of self)) then
      match poppable_tensors l !! name with
      | Some tensor =>
          (Ok tensor, {| stashed_tensors := stashed_tensors l;
                         poppable_tensors := delete name (poppable_tensors l) |})
      | None => (Raise (KeyError name), l)
      end
    else
      (Raise (RuntimeError
                (quote name +:+ " has not been declared as poppable")), l).

(** The check after [dispatch] ("All declared skips must be stashed or
    popped").  [poppable_tensors.keys()] is iterated in insertion order in
    Python; the order of [elements] stands for it. *)
Definition check_declared (self : Skippable) (l : Locals) : Result unit :=
  let not_stashed :=
    stashable_names (class_of self) ∖ dom (stashed_tensors l) in
  let not_popped : gset string := dom (poppable_tensors l) in
  if decide (not_stashed ≠ ∅) then
    let comma_names := join ", " (quote <$> elements not_stashed) in
    Raise (RuntimeError (comma_names +:+ " must be stashed but have not"))
  else if decide (not_popped ≠ ∅) then
    let comma_names := join ", " (quote <$> elements not_popped) in
    Raise (RuntimeError (comma_names +:+ " must be popped but have not"))
  else Ok tt.

Context {T : Type} `{!SkipTracker Tensor T}.

(** "Load skip tensors that might be popped." *)
Fixpoint load_poppable (batch : Batch Tensor) (keys : list SkipKey)
    (poppable_tensors : gmap string (option Tensor))
    : M T (gmap string (option Tensor)) :=
  match keys with
  | [] => ret poppable_tensors
  | (ns, name) :: keys =>
      λ tracker,
        match load batch ns name tracker with
        | (Ok tensor, tracker) =>
            load_poppable batch keys (<[name := tensor]> poppable_tensors)
              tracker
        | (Raise (KeyError _), tracker) =>
            (Raise (RuntimeError (quote name +:+ " has not been stashed")),
             tracker)
        | (Raise e, tracker) => (Raise e, tracker)
        end
  end.

(** "Save stashed skip tensors." *)
Fixpoint save_stashed (batch : Batch Tensor) (keys : list SkipKey)
    (stashed_tensors : gmap string (option Tensor)) : M T unit :=
  match keys with
  | [] => ret tt
  | (ns, name) :: keys =>
      match stashed_tensors !! name with
      | Some tensor =>
          do _ <- save batch ns name tensor;
          save_stashed batch keys stashed_tensors
      | None => raise (KeyError name)
      end
  end.

(** [Skippable.forward], on the tracker given by [current_skip_tracker()]. *)
Definition forward (self : Skippable) (input : TensorOrTensors)
    : M T TensorOrTensors :=
  let batch := {| tensor_or_tensors := input |} in
  do poppable_tensors <- load_poppable batch (poppable self) ∅;
  let input := tensor_or_tensors batch in
  match
    dispatch self input (handle_stash self) (handle_pop self)
      {| stashed_tensors := ∅; poppable_tensors := poppable_tensors |}
  with
  | (Raise e, _) => raise e
  | (Ok output, locals) =>
      match check_declared self locals with
      | Raise e => raise e
      | Ok _ =>
          let batch := {| tensor_or_tensors := output |} in
          do _ <- save_stashed batch (stashable self) (stashed_tensors locals);
          ret (tensor_or_tensors batch)
      end
  end.

End Forward.

(** ** The verifier *)

Section Verify.

Context {Tensor Args : Type}.

#[local] Abbreviation Skippable := (Skippable Tensor Args).

(** A child of the [nn.Sequential]: a skippable, or any other module (the
    test [isinstance(layer, Skippable)]). *)
Inductive Layer : Type :=
  | Skip (layer : Skippable)
  | Plain.

(** [module.named_children()]. *)
Definition Sequential : Type := list (string * Layer).

(** The messages, as the source formats them. *)
Definition msg_both (layer_name name : string) : string :=
  quote layer_name +:+ " declared " +:+ quote name
    +:+ " both as stashable and as poppable".

Definition msg_restashed (layer_name name : string) : string :=
  quote layer_name +:+ " redeclared " +:+ quote name +:+ " as stashable".

Definition msg_repopped (layer_name name : string) : string :=
  quote layer_name +:+ " redeclared " +:+ quote name +:+ " as poppable".

Definition msg_not_stashed (layer_name name : string) : string :=
  quote layer_name +:+ " declared " +:+ quote name
    +:+ " as poppable but it was not stashed".

Definition msg_not_popped (name : string) : string :=
  "any module did not declare " +:+ quote name +:+ " as poppable".

(** The three local variables of [verify_skippables]. *)
Record Scan : Type := {
  stashed : gset SkipKey;
  popped : gset SkipKey;
  msgs : list string;
}.

Definition append (msg : string) (s : Scan) : Scan :=
  {| stashed := stashed s; popped := popped s; msgs := msgs s ++ [msg] |}.

(** [for name in layer.stashable_names & layer.poppable_names]. *)
Definition scan_both (layer_name : string) (layer : Skippable) (s : Scan)
    : Scan :=
  foldl (λ s name, append (msg_both layer_name name) s) s
    (elements (stashable_names (class_of layer)
                 ∩ poppable_names (class_of layer))).

(** The body of [for ns, name in layer.stashable()]. *)
Definition scan_stashable_step (layer_name : string) (layer : Skippable)
    (s : Scan) (key : SkipKey) : Scan :=
  let '(ns, name) := key in
  if decide (name ∈ poppable_names (class_of layer)) then s
  else if decide ((ns, name) ∈ stashed s) then
    append (msg_restashed layer_name name) s
  else
    {| stashed := {[ (ns, name) ]} ∪ stashed s;
       popped := popped s; msgs := msgs s |}.

Definition scan_stashable (layer_name : string) (layer : Skippable) (s : Scan)
    : Scan :=
  foldl (scan_stashable_step layer_name layer) s (stashable layer).

(** The body of [for ns, name in layer.poppable()]. *)
Definition scan_poppable_step (layer_name : string) (layer : Skippable)
    (s : Scan) (key : SkipKey) : Scan :=
  let '(ns, name) := key in
  if decide (name ∈ stashable_names (class_of layer)) then s
  else if decide ((ns, name) ∈ popped s) then
    append (msg_repopped layer_name name) s
  else if decide ((ns, name) ∉ stashed s) then
    append (msg_not_stashed layer_name name) s
  else
    {| stashed := stashed s;
       popped := {[ (ns, name) ]} ∪ popped s; msgs := msgs s |}.

Definition scan_poppable (layer_name : string) (layer : Skippable) (s : Scan)
    : Scan :=
  foldl (scan_poppable_step layer_name layer) s (poppable layer).

(** The body of the loop over the children. *)
Definition scan_layer (s : Scan) (child : string * Layer) : Scan :=
  match child with
  | (_, Plain) => s
  | (layer_name, Skip layer) =>
      scan_poppable layer_name layer
        (scan_stashable layer_name layer
           (scan_both layer_name layer s))
  end.

Definition scan_layers (module : Sequential) : Scan :=
  foldl scan_layer {| stashed := ∅; popped := ∅; msgs := [] |} module.

(** [for (_, name) in stashed - popped]. *)
Definition scan_unpopped (s : Scan) : Scan :=
  foldl (λ s '(_, name), append (msg_not_popped name) s) s
    (elements (stashed s ∖ popped s)).

(** All the messages collected by [verify_skippables]. *)
Definition findings (module : Sequential) : list string :=
  msgs (scan_unpopped (scan_layers module)).

Definition verify_message (msgs : list string) : string :=
  "one or more pairs of stash and pop not matched:" +:+ newline +:+ newline
    +:+ join newline ((λ x, "* " +:+ x) <$> msgs).

(** [verify_skippables]: [Ok] when it returns, [Raise] when it raises. *)
Definition verify_skippables (module : Sequential) : Result unit :=
  match findings module with
  | [] => Ok tt
  | msgs => Raise (TypeError (verify_message msgs))
  end.

End Verify.

Arguments Layer : clear implicits.
Arguments Sequential : clear implicits.

(** ** The run of a computation up to one of its commands *)

Section Reaches.

Context {Tensor St : Type}.
Context (handle_stash : string → option Tensor → M St unit).
Context (handle_pop : string → M St (option Tensor)).

(** [reaches g st g' st']: driven from [g] with the handlers' store [st], the
    loop of [dispatch] arrives, without an exception, at [g'] with store
    [st']. *)
Inductive reaches
    : StashPopGenerator Tensor → St → StashPopGenerator Tensor → St → Prop :=
  | reaches_here g st : reaches g st g st
  | reaches_stash name tensor resume st st1 g' st' :
      handle_stash name tensor st = (Ok tt, st1) →
      reaches (resume None) st1 g' st' →
      reaches (Yield (stash name tensor) resume) st g' st'
  | reaches_pop name resume st tensor st1 g' st' :
      handle_pop name st = (Ok tensor, st1) →
      reaches (resume tensor) st1 g' st' →
      reaches (Yield (pop name) resume) st g' st'.

End Reaches.

(** ** What the verifier has to find

    The violations of a sequence of layers as the specification words them,
    stated on the positions of the layers instead of on the sets that the
    scan of [verify_skippables] keeps; the scan is compared with them. *)

Section Violations.

Context {Tensor Args : Type}.

#[local] Abbreviation Skippable := (Skippable Tensor Args).
#[local] Abbreviation Sequential := (Sequential Tensor Args).

(** The layer takes part in the accounting as the one that stashes [key]:
    it declares the name stashable and not poppable. *)
Definition stashes (layer : Skippable) (key : SkipKey) : Prop :=
  snd key ∈ stashable_names (class_of layer)
  ∧ (snd key ∉ poppable_names (class_of layer))
  ∧ namespaced layer (snd key) = key.

(** The layer takes part in the accounting as the one that pops [key]. *)
Definition pops (layer : Skippable) (key : SkipKey) : Prop :=
  snd key ∈ poppable_names (class_of layer)
  ∧ (snd key ∉ stashable_names (class_of layer))
  ∧ namespaced layer (snd key) = key.

(** Some layer of [layers] stashes [key]. *)
Definition stashed_in (layers : Sequential) (key : SkipKey) : Prop :=
  ∃ layer_name layer,
    (layer_name, Skip layer) ∈ layers ∧ stashes layer key.

(** Some layer of [layers] pops [key] after an earlier layer stashed it. *)
Definition popped_in (layers : Sequential) (key : SkipKey) : Prop :=
  ∃ before layer_name layer after,
    layers = before ++ (layer_name, Skip layer) :: after
    ∧ pops layer key ∧ stashed_in before key.

Inductive Violation : Type :=
  | DeclaredBoth (layer_name name : string)
  | Restashed (layer_name name : string)
  | Repopped (layer_name name : string)
  | NotStashed (layer_name name : string)
  | NotPopped (name : string).

(** The message that reports a violation. *)
Definition describe (v : Violation) : string :=
  match v with
  | DeclaredBoth layer_name name => msg_both layer_name name
  | Restashed layer_name name => msg_restashed layer_name name
  | Repopped layer_name name => msg_repopped layer_name name
  | NotStashed layer_name name => msg_not_stashed layer_name name
  | NotPopped name => msg_not_popped name
  end.

(** The violations found at one layer, given the layers [before] it. *)
Inductive layer_violation (before : Sequential) (layer_name : string)
    (layer : Skippable) : Violation → Prop :=
  | declared_both name :
      name ∈ stashable_names (class_of layer) →
      name ∈ poppable_names (class_of layer) →
      layer_violation before layer_name layer (DeclaredBoth layer_name name)
  | restashed name :
      stashes layer (namespaced layer name) →
      stashed_in before (namespaced layer name) →
      layer_violation before layer_name layer (Restashed layer_name name)
  | repopped name :
      pops layer (namespaced layer name) →
      popped_in before (namespaced layer name) →
      layer_violation before layer_name layer (Repopped layer_name name)
  | not_stashed name :
      pops layer (namespaced layer name) →
      ¬ stashed_in before (namespaced layer name) →
      layer_violation before layer_name layer (NotStashed layer_name name).

(** The violations found at the layers of a sequence. *)
Definition violation_at_layers (module : Sequential) (v : Violation) : Prop :=
  ∃ before layer_name layer after,
    module = before ++ (layer_name, Skip layer) :: after
    ∧ layer_violation before layer_name layer v.

(** The violations of a whole sequence: those at its layers, and the keys
    left stashed at its end. *)
Inductive violation (module : Sequential) : Violation → Prop :=
  | at_layers v :
      violation_at_layers module v →
      violation module v
  | not_popped ns name :
      stashed_in module (ns, name) →
      ¬ popped_in module (ns, name) →
      violation module (NotPopped name).

(** What the three variables of the scan hold after the layers [layers]. *)
Definition scanned (layers : Sequential) (s : Scan) : Prop :=
  (∀ key, key ∈ stashed s ↔ stashed_in layers key)
  ∧ (∀ key, key ∈ popped s ↔ popped_in layers key)
  ∧ (∀ x, x ∈ msgs s ↔ ∃ v, violation_at_layers layers v ∧ describe v = x).

(** The layer as it would be had its class not declared [name] at all,
    neither as stashable nor as poppable: what a name that takes no part in
    the accounting is compared with. *)
Definition undeclare (name : string) (layer : Skippable) : Skippable :=
  {| class_of :=
       {| module_cls := module_cls (class_of layer);
          stashable_names := stashable_names (class_of layer) ∖ {[ name ]};
          poppable_names := poppable_names (class_of layer) ∖ {[ name ]} |};
     module := module layer;
     namespaces := namespaces layer |}.

(** A layer without skip declarations: not a skippable, or a skippable
    that declares no name. *)
Definition undeclaring (child : string * Layer Tensor Args) : Prop :=
  match snd child with
  | Plain => True
  | Skip layer =>
      stashable_names (class_of layer) = ∅
      ∧ poppable_names (class_of layer) = ∅
  end.

End Violations.

(** ** Example stages

    Tensors are numbers here and the wrapped modules take no constructor
    arguments. *)

Module Examples.

(** [@skippable(stash=['x'])], with a [forward] that stashes its input:
    [yield stash('x', input); return input]. *)
Definition Stash : SkippableClass nat unit :=
  skippable ["x"] []
    (λ _ input,
       Generated
         (Yield
            (stash "x"
               match input with OneTensor t => Some t | Tensors _ => None end)
            (λ _, Return input))).

(** [@skippable(pop=['x'])]: [skip = yield pop('x'); return input]. *)
Definition Pop : SkippableClass nat unit :=
  skippable [] ["x"]
    (λ _ input, Generated (Yield (pop "x") (λ _, Return input))).

(** A stage that declares ['x'] on both sides and never yields. *)
Definition Both : SkippableClass nat unit :=
  skippable ["x"] ["x"] (λ _ input, Output input).

(** [@skippable(stash=['a'], pop=['b'])] around a [forward] that returns
    its input without a [yield]. *)
Definition Idle : SkippableClass nat unit :=
  skippable ["a"] ["b"] (λ _ input, Output input).

(** [@skippable(stash=['a'])] around a [forward] that stashes ['b'] and
    then pops ['c']. *)
Definition Stray : SkippableClass nat unit :=
  skippable ["a"] []
    (λ _ input,
       Generated
         (Yield (stash "b" None) (λ _, Yield (pop "c") (λ _, Return input)))).

(** [@skippable(pop=['b'])] around a [forward] that pops an undeclared
    name. *)
Definition StrayPop : SkippableClass nat unit :=
  skippable [] ["b"]
    (λ _ input, Generated (Yield (pop "c") (λ _, Return input))).

(** A stage without declarations. *)
Definition Bare : SkippableClass nat unit :=
  skippable [] [] (λ _ input, Output input).

(** [@skippable(stash=['s'])] and [@skippable(pop=['t'])]. *)
Definition StashS : SkippableClass nat unit :=
  skippable ["s"] [] (λ _ input, Output input).

Definition PopT : SkippableClass nat unit :=
  skippable [] ["t"] (λ _ input, Output input).

(** A tracker that holds the tensor [7] under [(None, 'b')]. *)
Definition tracker_b : gmap SkipKey (option nat) := {[ (None, "b") := Some 7 ]}.

(** [nn.Sequential(StashS(), PopT())]. *)
Definition unmatched : Sequential nat unit :=
  [("0", Skip (init StashS tt)); ("1", Skip (init PopT tt))].

(** [nn.Sequential(Stash(), nn.ReLU(), Pop())]. *)
Definition matched : Sequential nat unit :=
  [("0", Skip (init Stash tt)); ("1", Plain); ("2", Skip (init Pop tt))].

(** [nn.Sequential(Stash(), Both(), Pop())]. *)
Definition conflicted : Sequential nat unit :=
  [("0", Skip (init Stash tt)); ("1", Skip (init Both tt));
   ("2", Skip (init Pop tt))].

End Examples.

(** ** Running the stages of a verified sequence *)

Section Pipeline.

Context {Tensor Args : Type}.

#[local] Abbreviation Skippable := (Skippable Tensor Args).
#[local] Abbreviation TensorOrTensors := (TensorOrTensors Tensor).

(** The tracker holds the keys that the scanned layers stashed and did not
    pop: what the scan of [verify_skippables] knows of a tracker that went
    through the same layers. *)
Definition in_sync (s : Scan) (tracker : gmap SkipKey (option Tensor))
    : Prop :=
  dom tracker = stashed s ∖ popped s ∧ popped s ⊆ stashed s.

(** The error of [forward] for a poppable name that is not in the
    tracker. *)
Definition missing_skip (e : Exn) : Prop :=
  ∃ name, e = RuntimeError (quote name +:+ " has not been stashed").

(** What a child of the sequence is and computes: a skippable, or any other
    module, which maps its input to its output and does not touch the
    tracker. *)
Inductive Stage : Type :=
  | SkippableStage (layer : Skippable)
  | OtherStage (f : TensorOrTensors → TensorOrTensors).

Definition layer_of (stage : Stage) : Layer Tensor Args :=
  match stage with
  | SkippableStage layer => Skip layer
  | OtherStage _ => Plain
  end.

(** A child of the sequence: a module object, known by its identity, and
    what it is.  The same object can be placed more than once in a
    sequence. *)
Record Child : Type := {
  identity : ref;
  stage : Stage;
}.

(** [module.named_children()] of [torch.nn.Module], which
    [verify_skippables] iterates over: it goes through the children in
    order, keeps a [memo] of the objects it has yielded, and yields an
    object that is not in [memo] only; an object placed several times is
    yielded once, at its first place. *)
Fixpoint named_children_from (memo : gset ref)
    (children : list (string * Child)) : list (string * Child) :=
  match children with
  | [] => []
  | (name, child) :: children =>
      if decide (identity child ∈ memo) then
        named_children_from memo children
      else
        (name, child)
          :: named_children_from ({[ identity child ]} ∪ memo) children
  end.

Definition named_children (children : list (string * Child))
    : list (string * Child) :=
  named_children_from ∅ children.

(** The children as [verify_skippables] sees them. *)
Definition layers_of (children : list (string * Child))
    : Sequential Tensor Args :=
  (λ child, (fst child, layer_of (stage (snd child))))
    <$> named_children children.

(** Modelled from the spec: the scheduler that drives the stages is not part
    of the sources at hand.  The spec describes it as taking one tracker per
    micro-batch and, for each stage in sequence, running the stage on the
    output of the stage before, a stage being started only when the one
    before has finished or failed.  Every place of the sequence is run, an
    object placed twice is run twice. *)
Fixpoint run_stages (children : list (string * Child))
    (input : TensorOrTensors)
    : M (gmap SkipKey (option Tensor)) TensorOrTensors :=
  match children with
  | [] => ret input
  | (_, child) :: children =>
      match stage child with
      | SkippableStage layer =>
          do output <- forward layer input;
          run_stages children output
      | OtherStage f => run_stages children (f input)
      end
  end.

End Pipeline.

Arguments Stage : clear implicits.
Arguments Child : clear implicits.

(** ** The ResNet-101 speed benchmark: what [data_parallel_train] computes
    before it trains

    [benchmarks/resnet101-speed/main.py].  The processes, the devices and
    the tensors are left out; what is kept is the arithmetic on the list of
    devices and on the sizes of the batches. *)

Module Benchmark.

#[local] Open Scope Z_scope.

Inductive Exn : Type :=
  | ValueError (msg : string)
  | ZeroDivisionError
  | NegativeDimension.

Inductive Outcome (A : Type) : Type :=
  | Returns (a : A)
  | Raises (e : Exn).
Arguments Returns {A} a.
Arguments Raises {A} e.

(** Python's adjustment of one bound of a slice to a sequence of length
    [len]. *)
Definition adjust (i len : Z) : Z :=
  if decide (i < 0) then Z.max (i + len) 0 else Z.min i len.

(** Python's [l[start:stop]]. *)
Definition slice {A : Type} (l : list A) (start stop : Z) : list A :=
  let len := Z.of_nat (length l) in
  let start := adjust start len in
  let stop := adjust stop len in
  take (Z.to_nat (stop - start)) (drop (Z.to_nat start) l).

(** The devices of the pipeline of one rank: the check that the devices
    divide evenly, [num_devices_per_pipeline] and [devices_pipeline]. *)
Definition devices_pipeline {Device : Type} (rank world_size : Z)
    (devices : list Device) : Outcome (list Device) :=
  let len := Z.of_nat (length devices) in
  if decide (world_size = 0) then Raises ZeroDivisionError
  else if decide (len `mod` world_size ≠ 0) then
    Raises (ValueError ("GPUs cannot be divided evenly into "
                        +:+ pretty world_size +:+ " pipelines"))
  else
    let num_devices_per_pipeline := (len `div` world_size) in
    Returns (slice devices (rank * num_devices_per_pipeline)
               ((rank + 1) * num_devices_per_pipeline)).

Definition dataset_size : Z := 50000.

(** The list [data] of one epoch, a tensor being the list of its rows
    along the first dimension: [dataset_size // batch_size] times the
    input of [batch_size] rows, and the first [dataset_size % batch_size]
    rows of it when that is not zero.  [torch.rand] raises for a negative
    size. *)
Definition epoch_data {Row : Type} (row : Row) (batch_size : Z)
    : Outcome (list (list Row)) :=
  if decide (batch_size < 0) then Raises NegativeDimension
  else
    let input := replicate (Z.to_nat batch_size) row in
    if decide (batch_size = 0) then Raises ZeroDivisionError
    else
      let data :=
        replicate (Z.to_nat (dataset_size `div` batch_size)) input in
      if decide (dataset_size `mod` batch_size ≠ 0) then
        let last_input := slice input 0 (dataset_size `mod` batch_size) in
        Returns (data ++ [last_input])
      else Returns data.

(** [data_trained] at the end of the loop over [data]: the sum of
    [input.size(0)]. *)
Definition data_trained {Row : Type} (data : list (list Row)) : Z :=
  foldl (λ data_trained input, data_trained + Z.of_nat (length input))
    0 data.

End Benchmark.

(** ** More example stages *)

Module MoreExamples.

Import Examples.

(** [@skippable(pop=['x'])] around a [forward] that pops ['x'] twice. *)
Definition PopTwice : SkippableClass nat unit :=
  skippable [] ["x"]
    (λ _ input,
       Generated
         (Yield (pop "x") (λ _, Yield (pop "x") (λ _, Return input)))).

(** A stage whose [forward] yields the number 42. *)
Definition Chatty : SkippableClass nat unit :=
  skippable [] []
    (λ _ input,
       Generated (Yield (other (NotTuple "42")) (λ _, Return input))).

(** A stage whose [forward] yields the tuple [(1, 2)]. *)
Definition Pairing : SkippableClass nat unit :=
  skippable [] []
    (λ _ input,
       Generated (Yield (other (Tuple ["1"; "2"])) (λ _, Return input))).

(** [@skippable(stash=['x'])] around a [forward] that stashes ['x'] twice. *)
Definition StashTwice : SkippableClass nat unit :=
  skippable ["x"] []
    (λ _ input,
       Generated
         (Yield (stash "x" (Some 1))
            (λ _, Yield (stash "x" (Some 2)) (λ _, Return input)))).

(** A tracker that holds the tensor [7] under [(None, 'x')]. *)
Definition tracker_x : gmap SkipKey (option nat) := {[ (None, "x") := Some 7 ]}.

(** [nn.Sequential(Pop(), Stash())]. *)
Definition backwards : Sequential nat unit :=
  [("0", Skip (init Pop tt)); ("1", Skip (init Stash tt))].

(** [nn.Sequential(Stash(), Stash())]. *)
Definition twins : Sequential nat unit :=
  [("0", Skip (init Stash tt)); ("1", Skip (init Stash tt))].

(** The usage in the docstring of [isolate], with [1] and [2] for the two
    namespaces. *)
Definition isolated : Sequential nat unit :=
  [("0", Skip (isolate_self 1%positive None (init Stash tt)));
   ("1", Skip (isolate_self 2%positive None (init Stash tt)));
   ("2", Skip (isolate_self 2%positive None (init Pop tt)));
   ("3", Skip (isolate_self 1%positive None (init Pop tt)))].

(** [nn.Sequential(Stash(), nn.Identity(), Pop())]: three objects. *)
Definition stages : list (string * Child nat unit) :=
  [("0", {| identity := 1%positive;
            stage := SkippableStage (init Stash tt) |});
   ("1", {| identity := 2%positive; stage := OtherStage (λ input, input) |});
   ("2", {| identity := 3%positive;
            stage := SkippableStage (init Pop tt) |})].

(** [s = Stash(); p = Pop(); nn.Sequential(s, p, s)]: the object [s] is
    placed twice. *)
Definition repeated : list (string * Child nat unit) :=
  [("0", {| identity := 1%positive;
            stage := SkippableStage (init Stash tt) |});
   ("1", {| identity := 2%positive;
            stage := SkippableStage (init Pop tt) |});
   ("2", {| identity := 1%positive;
            stage := SkippableStage (init Stash tt) |})].

End MoreExamples.

(** * Properties *)

(** ** Strings *)

Lemma string_app_assoc (a b c : string) : (a +:+ b) +:+ c = a +:+ b +:+ c.
Proof.
  induction a as [|ch a IH]; [done|].
  change ((String ch a +:+ b) +:+ c) with (String ch ((a +:+ b) +:+ c)).
  by rewrite IH.
Qed.

Lemma string_app_nil_r (a : string) : a +:+ "" = a.
Proof.
  induction a as [|ch a IH]; [done|].
  change (String ch a +:+ "") with (String ch (a +:+ "")). by rewrite IH.
Qed.

Lemma mentions_refl (x : string) : mentions x x.
Proof. exists "", "". by rewrite string_app_nil_r. Qed.

Lemma mentions_app_r (x a b : string) : mentions x b → mentions x (a +:+ b).
Proof.
  intros (pre & post & ->). exists (a +:+ pre), post.
  by rewrite string_app_assoc.
Qed.

Lemma mentions_app_l (x a b : string) : mentions x a → mentions x (a +:+ b).
Proof.
  intros (pre & post & ->). exists pre, (post +:+ b).
  by rewrite !string_app_assoc.
Qed.

Lemma mentions_trans (x y z : string) :
  mentions x y → mentions y z → mentions x z.
Proof.
  intros Hxy (pre & post & ->).
  by apply mentions_app_r, mentions_app_l.
Qed.

Lemma mentions_join (sep x : string) (xs : list string) :
  x ∈ xs → mentions x (join sep xs).
Proof.
  induction xs as [|y xs IH]; [by intros ?%elem_of_nil|].
  intros [->|Hx]%elem_of_cons.
  - destruct xs as [|z xs]; [apply mentions_refl|].
    apply (mentions_app_l _ y), mentions_refl.
  - destruct xs as [|z xs]; [by apply elem_of_nil in Hx|].
    change (join sep (y :: z :: xs)) with (y +:+ sep +:+ join sep (z :: xs)).
    by apply mentions_app_r, mentions_app_r, IH.
Qed.

Lemma starts_with_app (x post : string) : starts_with x (x +:+ post) = true.
Proof.
  induction x as [|ch x IH]; [done|].
  change (String ch x +:+ post) with (String ch (x +:+ post)).
  simpl. by rewrite bool_decide_eq_true_2, IH.
Qed.

Lemma mentions_contains (x msg : string) :
  mentions x msg → contains x msg = true.
Proof.
  intros (pre & post & ->).
  induction pre as [|ch pre IH].
  - change ("" +:+ x +:+ post) with (x +:+ post).
    destruct (x +:+ post) eqn:E; simpl; rewrite <-E, starts_with_app; done.
  - change (String ch pre +:+ x +:+ post) with (String ch (pre +:+ x +:+ post)).
    simpl. rewrite IH. by rewrite orb_true_r.
Qed.

(** ** Namespaces *)

Section NamespaceProperties.

Context {Tensor Args : Type}.

#[local] Abbreviation Skippable := (Skippable Tensor Args).
#[local] Abbreviation SkippableClass := (SkippableClass Tensor Args).
#[local] Abbreviation Heap := (gmap ref Skippable).

Lemma namespaced_name (self : Skippable) (name : string) :
  snd (namespaced self name) = name.
Proof. done. Qed.

Lemma namespaced_inj (self : Skippable) (n1 n2 : string) :
  namespaced self n1 = namespaced self n2 → n1 = n2.
Proof. by intros [= _ ?]. Qed.

Lemma new_fresh (cls : SkippableClass) (args : Args) (h : Heap) :
  h !! fst (new cls args h) = None.
Proof. apply not_elem_of_dom, is_fresh. Qed.

Lemma new_lookup (cls : SkippableClass) (args : Args) (h : Heap) :
  snd (new cls args h) !! fst (new cls args h) = Some (init cls args).
Proof. apply lookup_insert_eq. Qed.

Lemma set_namespaces_lookup (ns : Namespace) (names : list string)
    (self : Skippable) (name : string) :
  namespaces (foldl (set_namespace ns) self names) !! name
  = if decide (name ∈ names) then Some ns else namespaces self !! name.
Proof.
  revert self. induction names as [|n names IH]; intros self; simpl.
  - done.
  - rewrite IH. simpl.
    destruct (decide (name ∈ names)) as [Hin|Hin].
    + by rewrite decide_True by (by right).
    + destruct (decide (n = name)) as [->|Hne].
      * rewrite lookup_insert_eq. by rewrite decide_True by left.
      * rewrite lookup_insert_ne by done.
        rewrite decide_False; [done|].
        intros [?|?]%elem_of_cons; congruence.
Qed.

Lemma set_namespaces_class (ns : Namespace) (names : list string)
    (self : Skippable) :
  class_of (foldl (set_namespace ns) self names) = class_of self
  ∧ module (foldl (set_namespace ns) self names) = module self.
Proof.
  revert self. induction names as [|n names IH]; intros self; [done|].
  simpl. by destruct (IH (set_namespace ns self n)) as [-> ->].
Qed.

Lemma never_isolated_unbound (self : Skippable) (name : string) :
  never_isolated name self → namespaces self !! name = None.
Proof.
  induction 1 as [cls args|self ns only _ IH Hname].
  - apply lookup_empty.
  - unfold isolate_self. rewrite set_namespaces_lookup.
    by rewrite decide_False by (by rewrite elem_of_elements).
Qed.

(** C1, as the code has it: on an instance on which [isolate] was never
    called for [name], the key of [name] is [(None, name)], whatever the
    instance: the default namespace is one shared [None], not the identity
    of the instance, and two such instances address the same slot of the
    tracker. *)
Theorem namespaced_default_is_shared (a b : Skippable) (name : string) :
  never_isolated name a →
  never_isolated name b →
  namespaced a name = (None, name)
  ∧ namespaced b name = (None, name)
  ∧ namespaced a name = namespaced b name.
Proof.
  intros Ha%never_isolated_unbound Hb%never_isolated_unbound.
  unfold namespaced. by rewrite Ha, Hb.
Qed.

(** C9: [isolate] returns the reference it was called on; behind it, the
    class and the wrapped module are unchanged and the namespace table maps
    to [ns] exactly the names listed in [only] or, when [only] is omitted,
    exactly the names declared as stashable or as poppable, and maps every
    other name as before; this for any [only], declared or not, as nothing
    is checked; the other objects are untouched. *)
Theorem isolate_rebinds (h : Heap) (self : ref) (obj : Skippable)
    (ns : Namespace) (only : option (list string)) :
  h !! self = Some obj →
  ∃ obj',
    isolate self ns only h = (self, <[self := obj']> h)
    ∧ class_of obj' = class_of obj
    ∧ module obj' = module obj
    ∧ ∀ name,
        namespaces obj' !! name
        = match only with
          | None =>
              if decide (name ∈ stashable_names (class_of obj)
                         ∨ name ∈ poppable_names (class_of obj))
              then Some ns
              else namespaces obj !! name
          | Some only =>
              if decide (name ∈ only) then Some ns
              else namespaces obj !! name
          end.
Proof.
  intros Hobj. exists (isolate_self ns only obj). split_and!.
  - unfold isolate. f_equal. apply map_eq. intros r.
    rewrite lookup_alter. case_decide as Hr.
    + subst r. by rewrite Hobj, lookup_insert_eq.
    + by rewrite lookup_insert_ne.
  - apply set_namespaces_class.
  - apply set_namespaces_class.
  - intros name. unfold isolate_self. rewrite set_namespaces_lookup.
    destruct only as [only|]; unfold isolated_names.
    + destruct (decide (name ∈ only)) as [Hin|Hin].
      * rewrite decide_True; [done|].
        by apply elem_of_elements, elem_of_list_to_set.
      * rewrite decide_False; [done|].
        by rewrite elem_of_elements, elem_of_list_to_set.
    + destruct (decide (name ∈ stashable_names (class_of obj)
                        ∨ name ∈ poppable_names (class_of obj)))
        as [Hin|Hin].
      * rewrite decide_True; [done|].
        by apply elem_of_elements, elem_of_union.
      * rewrite decide_False; [done|].
        by rewrite elem_of_elements, elem_of_union.
Qed.

End NamespaceProperties.

(** ** Dispatch *)

Section DispatchProperties.

Context {Tensor Args : Type}.

#[local] Abbreviation Skippable := (Skippable Tensor Args).
#[local] Abbreviation TensorOrTensors := (TensorOrTensors Tensor).
#[local] Abbreviation StashPopGenerator := (StashPopGenerator Tensor).

Lemma reaches_dispatch_loop {St : Type}
    (hs : string → option Tensor → M St unit)
    (hp : string → M St (option Tensor))
    (g g' : StashPopGenerator) (st st' : St) :
  reaches hs hp g st g' st' →
  dispatch_loop hs hp g st = dispatch_loop hs hp g' st'.
Proof.
  induction 1 as [|name tensor resume st st1 g' st' Hs _ IH
                  |name resume st tensor st1 g' st' Hp _ IH]; [done| |].
  - simpl. unfold bind. by rewrite Hs.
  - simpl. unfold bind. by rewrite Hp.
Qed.

Section WithTracker.

Context {T : Type} `{!SkipTracker Tensor T}.

Lemma forward_dispatch_raises (self : Skippable) (input : TensorOrTensors)
    (tracker tracker1 : T) (pt : gmap string (option Tensor))
    (e : Exn) (l : Locals) :
  load_poppable {| tensor_or_tensors := input |} (poppable self) ∅ tracker
    = (Ok pt, tracker1) →
  dispatch self input (handle_stash self) (handle_pop self)
    {| stashed_tensors := ∅; poppable_tensors := pt |} = (Raise e, l) →
  forward self input tracker = (Raise e, tracker1).
Proof.
  intros Hload Hdisp. unfold forward, bind. rewrite Hload. simpl.
  by rewrite Hdisp.
Qed.

Lemma forward_dispatch_returns (self : Skippable) (input : TensorOrTensors)
    (tracker tracker1 : T) (pt : gmap string (option Tensor))
    (output : TensorOrTensors) (l : Locals) :
  load_poppable {| tensor_or_tensors := input |} (poppable self) ∅ tracker
    = (Ok pt, tracker1) →
  dispatch self input (handle_stash self) (handle_pop self)
    {| stashed_tensors := ∅; poppable_tensors := pt |} = (Ok output, l) →
  forward self input tracker
  = match check_declared self l with
    | Raise e => (Raise e, tracker1)
    | Ok _ =>
        (do _ <- save_stashed {| tensor_or_tensors := output |}
                   (stashable self) (stashed_tensors l);
         ret output) tracker1
    end.
Proof.
  intros Hload Hdisp. unfold forward, bind. rewrite Hload. simpl.
  rewrite Hdisp. by destruct (check_declared self l).
Qed.

End WithTracker.

(** C8: when the wrapped module returns its output without a [yield] (it
    returns a plain value, or a generator that finishes at once), [dispatch]
    returns that output, calls no handler (their store is as before, for any
    handlers), and, for a stage without declared names, the whole of
    [forward] returns the output and leaves any tracker as it was. *)
Theorem dispatch_fast_path (self : Skippable) (input output : TensorOrTensors) :
  module self input = Output output
  ∨ module self input = Generated (Return output) →
  (∀ (St : Type) (hs : string → option Tensor → M St unit)
     (hp : string → M St (option Tensor)) (st : St),
      dispatch self input hs hp st = (Ok output, st))
  ∧ (∀ (T : Type) (tr : SkipTracker Tensor T) (tracker : T),
      stashable_names (class_of self) = ∅ →
      poppable_names (class_of self) = ∅ →
      forward self input tracker = (Ok output, tracker)).
Proof.
  intros Hmod.
  assert (∀ (St : Type) (hs : string → option Tensor → M St unit)
            (hp : string → M St (option Tensor)) (st : St),
            dispatch self input hs hp st = (Ok output, st)) as Hdisp.
  { intros St hs hp st. unfold dispatch. by destruct Hmod as [-> | ->]. }
  split; [done|].
  intros T tr tracker HS HP.
  rewrite (forward_dispatch_returns self input tracker tracker ∅ output
             {| stashed_tensors := ∅; poppable_tensors := ∅ |}).
  - unfold check_declared, stashable. simpl. rewrite HS.
    rewrite decide_False by (intros Hne; apply Hne; set_solver).
    rewrite decide_False by (intros Hne; apply Hne; set_solver).
    by rewrite elements_empty.
  - unfold poppable. by rewrite HP, elements_empty.
  - apply Hdisp.
Qed.

(** C7: in a call of [forward] whose computation arrives at a [stash] of a
    name outside the declared stashable names, the call raises "has not been
    declared as stashable"; at a [pop] of a name outside the declared
    poppable names, it raises "has not been declared as poppable". *)
Theorem undeclared_command_raises {T : Type} `{!SkipTracker Tensor T}
    (self : Skippable) (input : TensorOrTensors) (tracker tracker1 : T)
    (pt : gmap string (option Tensor)) (g : StashPopGenerator)
    (name : string) (resume : option Tensor → StashPopGenerator) (l : Locals) :
  load_poppable {| tensor_or_tensors := input |} (poppable self) ∅ tracker
    = (Ok pt, tracker1) →
  module self input = Generated g →
  (∀ tensor,
     reaches (handle_stash self) (handle_pop self) g
       {| stashed_tensors := ∅; poppable_tensors := pt |}
       (Yield (stash name tensor) resume) l →
     name ∉ stashable_names (class_of self) →
     forward self input tracker
     = (Raise (RuntimeError
                 (quote name +:+ " has not been declared as stashable")),
        tracker1))
  ∧ (reaches (handle_stash self) (handle_pop self) g
       {| stashed_tensors := ∅; poppable_tensors := pt |}
       (Yield (pop name) resume) l →
     name ∉ poppable_names (class_of self) →
     forward self input tracker
     = (Raise (RuntimeError
                 (quote name +:+ " has not been declared as poppable")),
        tracker1)).
Proof.
  intros Hload Hmod. split.
  - intros tensor Hreach Hname.
    apply (forward_dispatch_raises _ _ _ _ pt _ l); [done|].
    unfold dispatch. rewrite Hmod.
    rewrite (reaches_dispatch_loop _ _ _ _ _ _ Hreach). simpl.
    unfold bind, handle_stash. by rewrite decide_False.
  - intros Hreach Hname.
    apply (forward_dispatch_raises _ _ _ _ pt _ l); [done|].
    unfold dispatch. rewrite Hmod.
    rewrite (reaches_dispatch_loop _ _ _ _ _ _ Hreach). simpl.
    unfold bind, handle_pop. by rewrite decide_False.
Qed.

End DispatchProperties.

(** ** Loading the poppable tensors *)

Section LoadProperties.

Context {Tensor Args : Type}.

#[local] Abbreviation Skippable := (Skippable Tensor Args).
#[local] Abbreviation TensorOrTensors := (TensorOrTensors Tensor).
#[local] Abbreviation MapTracker := (gmap SkipKey (option Tensor)).

Lemma load_poppable_cons (self : Skippable) (batch : Batch Tensor)
    (n : string) (keys : list SkipKey) (pt : gmap string (option Tensor))
    (tracker : MapTracker) :
  load_poppable batch (namespaced self n :: keys) pt tracker
  = match tracker !! namespaced self n with
    | Some tensor =>
        load_poppable batch keys (<[n := tensor]> pt)
          (delete (namespaced self n) tracker)
    | None =>
        (Raise (RuntimeError (quote n +:+ " has not been stashed")), tracker)
    end.
Proof.
  simpl. unfold map_load. unfold namespaced.
  by destruct (tracker !! _).
Qed.

(** The loop over [names], when every key is in the tracker. *)
Lemma load_poppable_present (self : Skippable) (batch : Batch Tensor)
    (names : list string) (pt : gmap string (option Tensor))
    (tracker : MapTracker) :
  NoDup names →
  (∀ name, name ∈ names → is_Some (tracker !! namespaced self name)) →
  ∃ pt' tracker',
    load_poppable batch (namespaced self <$> names) pt tracker
      = (Ok pt', tracker')
    ∧ (∀ name, pt' !! name
               = if decide (name ∈ names)
                 then tracker !! namespaced self name else pt !! name)
    ∧ (∀ key, tracker' !! key
              = if decide (snd key ∈ names ∧ namespaced self (snd key) = key)
                then None else tracker !! key).
Proof.
  revert pt tracker.
  induction names as [|n names IH]; intros pt tracker Hnd Hall.
  - exists pt, tracker. split_and!; [done|done|].
    intros key. rewrite decide_False; [done|].
    by intros [?%elem_of_nil _].
  - apply NoDup_cons in Hnd as [Hn Hnd].
    destruct (Hall n) as [tensor Htensor]; [by left|].
    destruct (IH (<[n := tensor]> pt) (delete (namespaced self n) tracker))
      as (pt' & tracker' & Hload & Hpt & Htr); [done| |].
    { intros name Hname. rewrite lookup_delete_ne.
      - apply Hall. by right.
      - intros ?%namespaced_inj. by subst. }
    exists pt', tracker'. split_and!.
    + rewrite fmap_cons, load_poppable_cons. by rewrite Htensor.
    + intros name. rewrite Hpt.
      destruct (decide (name ∈ names)) as [Hin|Hin].
      * rewrite decide_True by (by right).
        rewrite lookup_delete_ne; [done|].
        intros ?%namespaced_inj. by subst.
      * destruct (decide (n = name)) as [->|Hne].
        -- rewrite decide_True by left. by rewrite lookup_insert_eq.
        -- rewrite lookup_insert_ne by done.
           rewrite decide_False; [done|].
           intros [?|?]%elem_of_cons; congruence.
    + intros key. rewrite Htr.
      destruct (decide (snd key ∈ names ∧ namespaced self (snd key) = key))
        as [[Hin Hkey]|Hnot].
      * by rewrite decide_True by (split; [by right|done]).
      * destruct (decide (namespaced self n = key)) as [<-|Hne].
        -- rewrite lookup_delete_eq.
           by rewrite decide_True by (split; [left|done]).
        -- rewrite lookup_delete_ne by done.
           rewrite decide_False; [done|].
           intros [[->|?]%elem_of_cons ?]; [done|]. by apply Hnot.
Qed.

(** The loop over [names], when some key is not in the tracker. *)
Lemma load_poppable_absent (self : Skippable) (batch : Batch Tensor)
    (names : list string) (pt : gmap string (option Tensor))
    (tracker : MapTracker) :
  NoDup names →
  (∃ name, name ∈ names ∧ tracker !! namespaced self name = None) →
  ∃ name tracker',
    name ∈ names
    ∧ tracker !! namespaced self name = None
    ∧ load_poppable batch (namespaced self <$> names) pt tracker
      = (Raise (RuntimeError (quote name +:+ " has not been stashed")),
         tracker').
Proof.
  revert pt tracker.
  induction names as [|n names IH]; intros pt tracker Hnd Hex.
  - by destruct Hex as (? & ?%elem_of_nil & _).
  - apply NoDup_cons in Hnd as [Hn Hnd].
    destruct (tracker !! namespaced self n) as [tensor|] eqn:Htensor.
    + destruct (IH (<[n := tensor]> pt) (delete (namespaced self n) tracker))
        as (name & tracker' & Hname & Hnone & Hload); [done| |].
      { destruct Hex as (name & [->|Hname]%elem_of_cons & Hnone);
          [congruence|].
        exists name. split; [done|]. rewrite lookup_delete_ne; [done|].
        intros ?%namespaced_inj. by subst. }
      exists name, tracker'. split_and!.
      * by right.
      * rewrite lookup_delete_ne in Hnone; [done|].
        intros ?%namespaced_inj. by subst.
      * rewrite fmap_cons, load_poppable_cons. by rewrite Htensor.
    + exists n, tracker. split_and!; [by left|done|].
      rewrite fmap_cons, load_poppable_cons. by rewrite Htensor.
Qed.

(** C6: on a tracker that is a mapping, [forward] first loads the key of
    every declared poppable name: when all are there, the loaded table holds
    for each such name the slot of its key, the keys are gone from the
    tracker, and the rest of the call (the computation under [dispatch], the
    check, the saves) runs from that table and that tracker; when one is
    absent, the call raises "has not been stashed" for a declared name whose
    key is absent, whatever the wrapped module. *)
Theorem forward_loads_poppable (self : Skippable) (input : TensorOrTensors)
    (tracker : MapTracker) :
  ((∀ name, name ∈ poppable_names (class_of self) →
            is_Some (tracker !! namespaced self name)) →
   ∃ pt tracker',
     load_poppable {| tensor_or_tensors := input |} (poppable self) ∅ tracker
       = (Ok pt, tracker')
     ∧ (∀ name, pt !! name
                = if decide (name ∈ poppable_names (class_of self))
                  then tracker !! namespaced self name else None)
     ∧ (∀ key, tracker' !! key
               = if decide (snd key ∈ poppable_names (class_of self)
                            ∧ namespaced self (snd key) = key)
                 then None else tracker !! key)
     ∧ forward self input tracker
       = match
           dispatch self input (handle_stash self) (handle_pop self)
             {| stashed_tensors := ∅; poppable_tensors := pt |}
         with
         | (Raise e, _) => (Raise e, tracker')
         | (Ok output, l) =>
             match check_declared self l with
             | Raise e => (Raise e, tracker')
             | Ok _ =>
                 (do _ <- save_stashed {| tensor_or_tensors := output |}
                            (stashable self) (stashed_tensors l);
                  ret output) tracker'
             end
         end)
  ∧ ((∃ name, name ∈ poppable_names (class_of self)
              ∧ tracker !! namespaced self name = None) →
     ∃ name tracker',
       name ∈ poppable_names (class_of self)
       ∧ tracker !! namespaced self name = None
       ∧ forward self input tracker
         = (Raise (RuntimeError (quote name +:+ " has not been stashed")),
            tracker')).
Proof.
  split.
  - intros Hall.
    destruct (load_poppable_present self {| tensor_or_tensors := input |}
                (elements (poppable_names (class_of self))) ∅ tracker)
      as (pt & tracker' & Hload & Hpt & Htr).
    { apply NoDup_elements. }
    { intros name ?%elem_of_elements. by apply Hall. }
    exists pt, tracker'. split_and!; [done| | |].
    + intros name. rewrite Hpt.
      destruct (decide (name ∈ poppable_names (class_of self))).
      * by rewrite decide_True by (by apply elem_of_elements).
      * by rewrite decide_False by (by rewrite elem_of_elements).
    + intros key. rewrite Htr.
      destruct (decide (snd key ∈ poppable_names (class_of self)
                        ∧ namespaced self (snd key) = key)) as [[??]|Hnot].
      * by rewrite decide_True by (by rewrite elem_of_elements).
      * rewrite decide_False; [done|].
        rewrite elem_of_elements. done.
    + destruct (dispatch self input (handle_stash self) (handle_pop self)
                  {| stashed_tensors := ∅; poppable_tensors := pt |})
        as [[output|e] l] eqn:Hdisp.
      * by apply (forward_dispatch_returns _ _ _ _ pt).
      * by apply (forward_dispatch_raises _ _ _ _ pt _ l).
  - intros (name & Hname & Hnone).
    destruct (load_poppable_absent self {| tensor_or_tensors := input |}
                (elements (poppable_names (class_of self))) ∅ tracker)
      as (name' & tracker' & Hname' & Hnone' & Hload).
    { apply NoDup_elements. }
    { exists name. by rewrite elem_of_elements. }
    exists name', tracker'. split_and!; [by apply elem_of_elements|done|].
    unfold forward, bind, poppable. by rewrite Hload.
Qed.

End LoadProperties.

(** ** The check after dispatch *)

Section CheckProperties.

Context {Tensor Args : Type}.

#[local] Abbreviation Skippable := (Skippable Tensor Args).
#[local] Abbreviation TensorOrTensors := (TensorOrTensors Tensor).

Lemma mentions_comma_names (names : gset string) (n : string) :
  n ∈ names → mentions (quote n) (join ", " (quote <$> elements names)).
Proof.
  intros Hn. apply mentions_join, list_elem_of_fmap.
  exists n. by rewrite elem_of_elements.
Qed.

Lemma check_declared_not_stashed (self : Skippable) (l : Locals) :
  stashable_names (class_of self) ∖ dom (stashed_tensors l) ≠ ∅ →
  check_declared self l
  = Raise (RuntimeError
             (join ", "
                (quote <$> elements (stashable_names (class_of self)
                                       ∖ dom (stashed_tensors l)))
              +:+ " must be stashed but have not")).
Proof. intros Hne. unfold check_declared. by rewrite decide_True. Qed.

Lemma check_declared_not_popped (self : Skippable) (l : Locals) :
  stashable_names (class_of self) ∖ dom (stashed_tensors l) = ∅ →
  dom (poppable_tensors l) ≠ ∅ →
  check_declared self l
  = Raise (RuntimeError
             (join ", " (quote <$> elements (dom (poppable_tensors l)))
              +:+ " must be popped but have not")).
Proof.
  intros He Hne. unfold check_declared.
  rewrite decide_False by (by intros ?). by rewrite decide_True.
Qed.

Lemma check_declared_passes (self : Skippable) (l : Locals) :
  stashable_names (class_of self) ∖ dom (stashed_tensors l) = ∅ →
  dom (poppable_tensors l) = ∅ →
  check_declared self l = Ok tt.
Proof.
  intros He Hp. unfold check_declared.
  rewrite decide_False by (by intros ?). by rewrite decide_False by (by intros ?).
Qed.

Lemma load_poppable_any_save {T : Type} (tr : SkipTracker Tensor T)
    (save' : Batch Tensor → option Namespace → string → option Tensor
             → M T unit)
    (batch : Batch Tensor) (keys : list SkipKey)
    (pt : gmap string (option Tensor)) (tracker : T) :
  load_poppable (SkipTracker0 := {| load := load; save := save' |})
    batch keys pt tracker
  = load_poppable batch keys pt tracker.
Proof.
  revert pt tracker.
  induction keys as [|[ns name] keys IH]; intros pt tracker; [done|].
  simpl. destruct (load batch ns name tracker) as [[tensor|e] tracker'].
  - apply IH.
  - done.
Qed.

(** C3, as the code has it: the two checks are made one after the other.
    When some declared stashable name was not stashed, the call raises "must
    be stashed but have not" with every such name in the message, whether or
    not loaded values are left over; only when every name was stashed and
    loaded values are left over does it raise "must be popped but have not",
    with every leftover name in the message. *)
Theorem forward_reports_one_kind {T : Type} `{!SkipTracker Tensor T}
    (self : Skippable) (input output : TensorOrTensors)
    (tracker tracker1 : T) (pt : gmap string (option Tensor)) (l : Locals) :
  load_poppable {| tensor_or_tensors := input |} (poppable self) ∅ tracker
    = (Ok pt, tracker1) →
  dispatch self input (handle_stash self) (handle_pop self)
    {| stashed_tensors := ∅; poppable_tensors := pt |} = (Ok output, l) →
  let not_stashed :=
    stashable_names (class_of self) ∖ dom (stashed_tensors l) in
  let not_popped : gset string := dom (poppable_tensors l) in
  (not_stashed ≠ ∅ →
   forward self input tracker
   = (Raise (RuntimeError
               (join ", " (quote <$> elements not_stashed)
                +:+ " must be stashed but have not")), tracker1)
   ∧ ∀ n, n ∈ not_stashed →
          mentions (quote n) (join ", " (quote <$> elements not_stashed)))
  ∧ (not_stashed = ∅ → not_popped ≠ ∅ →
     forward self input tracker
     = (Raise (RuntimeError
                 (join ", " (quote <$> elements not_popped)
                  +:+ " must be popped but have not")), tracker1)
     ∧ ∀ n, n ∈ not_popped →
            mentions (quote n) (join ", " (quote <$> elements not_popped))).
Proof.
  intros Hload Hdisp not_stashed not_popped. split.
  - intros Hne. split; [|apply mentions_comma_names].
    rewrite (forward_dispatch_returns _ _ _ _ _ _ _ Hload Hdisp).
    by rewrite check_declared_not_stashed.
  - intros He Hne. split; [|apply mentions_comma_names].
    rewrite (forward_dispatch_returns _ _ _ _ _ _ _ Hload Hdisp).
    by rewrite check_declared_not_popped.
Qed.

(** C10: when the check after dispatch fails, [forward] raises with the
    tracker as the loads left it, and the outcome is the same whatever
    [save] does: nothing was saved.  When the check passes, what remains of
    the call is the saving of the stashed tensors. *)
Theorem forward_saves_after_checks {T : Type} (tr : SkipTracker Tensor T)
    (self : Skippable) (input output : TensorOrTensors)
    (tracker tracker1 : T) (pt : gmap string (option Tensor)) (l : Locals) :
  load_poppable {| tensor_or_tensors := input |} (poppable self) ∅ tracker
    = (Ok pt, tracker1) →
  dispatch self input (handle_stash self) (handle_pop self)
    {| stashed_tensors := ∅; poppable_tensors := pt |} = (Ok output, l) →
  (stashable_names (class_of self) ∖ dom (stashed_tensors l) ≠ ∅
   ∨ dom (poppable_tensors l) ≠ ∅ →
   ∃ e,
     forward self input tracker = (Raise e, tracker1)
     ∧ ∀ save',
         forward (SkipTracker0 := {| load := load; save := save' |})
           self input tracker
         = (Raise e, tracker1))
  ∧ (stashable_names (class_of self) ∖ dom (stashed_tensors l) = ∅ →
     dom (poppable_tensors l) = ∅ →
     forward self input tracker
     = (do _ <- save_stashed {| tensor_or_tensors := output |}
                  (stashable self) (stashed_tensors l);
        ret output) tracker1).
Proof.
  intros Hload Hdisp. split.
  - intros Hfail.
    assert (∃ e, check_declared self l = Raise e) as [e He].
    { destruct (decide (stashable_names (class_of self)
                          ∖ dom (stashed_tensors l) = ∅)) as [Hs|Hs].
      - destruct Hfail as [?|Hp]; [done|].
        eexists. by apply check_declared_not_popped.
      - eexists. by apply check_declared_not_stashed. }
    exists e. split.
    { rewrite (forward_dispatch_returns _ _ _ _ _ _ _ Hload Hdisp).
      by rewrite He. }
    intros save'.
    rewrite (forward_dispatch_returns
               (SkipTracker0 := {| load := load; save := save' |})
               self input tracker tracker1 pt output l).
    + by rewrite He.
    + by rewrite load_poppable_any_save.
    + done.
  - intros Hs Hp.
    rewrite (forward_dispatch_returns _ _ _ _ _ _ _ Hload Hdisp).
    by rewrite check_declared_passes.
Qed.

End CheckProperties.

(** ** The verifier: layers without declarations, and acceptance *)

Section VerifyAccepts.

Context {Tensor Args : Type}.

#[local] Abbreviation Skippable := (Skippable Tensor Args).
#[local] Abbreviation Sequential := (Sequential Tensor Args).

Lemma scan_layer_undeclaring (s : Scan) (child : string * Layer Tensor Args) :
  undeclaring child → scan_layer s child = s.
Proof.
  destruct child as [layer_name [layer|]]; [|done].
  intros [HS HP]. simpl in HS, HP.
  unfold scan_layer, scan_poppable, scan_stashable, scan_both.
  unfold stashable, poppable. rewrite HS, HP.
  rewrite intersection_empty_l_L.
  by rewrite elements_empty.
Qed.

Lemma scan_layers_undeclaring (s : Scan) (layers : Sequential) :
  Forall undeclaring layers → foldl scan_layer s layers = s.
Proof.
  induction 1 as [|child layers Hchild _ IH]; [done|].
  simpl. by rewrite scan_layer_undeclaring.
Qed.

Lemma scan_layer_stash_only (s : Scan) (layer_name x : string)
    (layer : Skippable) :
  stashable_names (class_of layer) = {[x]} →
  poppable_names (class_of layer) = ∅ →
  namespaced layer x ∉ stashed s →
  scan_layer s (layer_name, Skip layer)
  = {| stashed := {[ namespaced layer x ]} ∪ stashed s;
       popped := popped s; msgs := msgs s |}.
Proof.
  intros HS HP Hfresh.
  unfold scan_layer, scan_poppable, scan_stashable, scan_both.
  unfold stashable, poppable. rewrite HS, HP.
  rewrite intersection_empty_r_L.
  rewrite elements_empty, elements_singleton.
  cbn [foldl fmap list_fmap]. unfold scan_stashable_step.
  unfold namespaced in *. rewrite HP.
  rewrite decide_False by set_solver. by rewrite decide_False.
Qed.

Lemma scan_layer_pop_only (s : Scan) (layer_name x : string)
    (layer : Skippable) :
  stashable_names (class_of layer) = ∅ →
  poppable_names (class_of layer) = {[x]} →
  namespaced layer x ∉ popped s →
  namespaced layer x ∈ stashed s →
  scan_layer s (layer_name, Skip layer)
  = {| stashed := stashed s;
       popped := {[ namespaced layer x ]} ∪ popped s; msgs := msgs s |}.
Proof.
  intros HS HP Hfresh Hstashed.
  unfold scan_layer, scan_poppable, scan_stashable, scan_both.
  unfold stashable, poppable. rewrite HS, HP.
  rewrite intersection_empty_l_L.
  rewrite elements_empty, elements_singleton.
  cbn [foldl fmap list_fmap]. unfold scan_poppable_step.
  unfold namespaced in *. rewrite HS.
  rewrite decide_False by set_solver. rewrite decide_False by done.
  by rewrite decide_False by (by intros ?).
Qed.

(** C4: one layer declares [x] stashable, a later layer declares [x]
    poppable with the same entry for [x] in its namespace table, and no
    other layer declares anything: [verify_skippables] returns. *)
Theorem verify_accepts_stash_then_pop (before between after : Sequential)
    (name_a name_b x : string) (a b : Skippable) :
  Forall undeclaring before →
  Forall undeclaring between →
  Forall undeclaring after →
  stashable_names (class_of a) = {[x]} →
  poppable_names (class_of a) = ∅ →
  stashable_names (class_of b) = ∅ →
  poppable_names (class_of b) = {[x]} →
  namespaces a !! x = namespaces b !! x →
  verify_skippables
    (before ++ (name_a, Skip a) :: between ++ (name_b, Skip b) :: after)
  = Ok tt.
Proof.
  intros Hbefore Hbetween Hafter HSa HPa HSb HPb Hns.
  assert (namespaced a x = namespaced b x) as Hkey.
  { unfold namespaced. by rewrite Hns. }
  unfold verify_skippables, findings, scan_layers.
  rewrite foldl_app, (scan_layers_undeclaring _ before) by done.
  cbn [foldl].
  rewrite (scan_layer_stash_only _ _ x) by (done || apply not_elem_of_empty).
  rewrite foldl_app, (scan_layers_undeclaring _ between) by done.
  cbn [foldl]. rewrite (scan_layer_pop_only _ _ x);
    [|done|done|apply not_elem_of_empty
     |rewrite <-Hkey; by apply elem_of_union_l, elem_of_singleton].
  rewrite (scan_layers_undeclaring _ after) by done.
  unfold scan_unpopped. cbn [stashed popped msgs]. rewrite Hkey.
  rewrite difference_diag_L.
  by rewrite elements_empty.
Qed.

End VerifyAccepts.

(** ** The verifier: what one layer adds to the scan *)

Section ScanProperties.

Context {Tensor Args : Type}.

#[local] Abbreviation Skippable := (Skippable Tensor Args).
#[local] Abbreviation Sequential := (Sequential Tensor Args).

Lemma scan_both_names (layer_name : string) (names : list string) (s : Scan) :
  foldl (λ s name, append (msg_both layer_name name) s) s names
  = {| stashed := stashed s; popped := popped s;
       msgs := msgs s ++ (msg_both layer_name <$> names) |}.
Proof.
  revert s. induction names as [|n names IH]; intros s.
  - simpl. rewrite app_nil_r. by destruct s.
  - simpl. rewrite IH. simpl. by rewrite <-app_assoc.
Qed.

Lemma scan_stashable_step_eq (layer_name : string) (layer : Skippable)
    (s : Scan) (n : string) :
  scan_stashable_step layer_name layer s (namespaced layer n)
  = if decide (n ∈ poppable_names (class_of layer)) then s
    else if decide (namespaced layer n ∈ stashed s) then
      append (msg_restashed layer_name n) s
    else
      {| stashed := {[ namespaced layer n ]} ∪ stashed s;
         popped := popped s; msgs := msgs s |}.
Proof. done. Qed.

Lemma scan_poppable_step_eq (layer_name : string) (layer : Skippable)
    (s : Scan) (n : string) :
  scan_poppable_step layer_name layer s (namespaced layer n)
  = if decide (n ∈ stashable_names (class_of layer)) then s
    else if decide (namespaced layer n ∈ popped s) then
      append (msg_repopped layer_name n) s
    else if decide (namespaced layer n ∉ stashed s) then
      append (msg_not_stashed layer_name n) s
    else
      {| stashed := stashed s;
         popped := {[ namespaced layer n ]} ∪ popped s; msgs := msgs s |}.
Proof. done. Qed.

(** One turn of the loop over the stashable names. *)
Lemma scan_stashable_step_spec (layer_name : string) (layer : Skippable)
    (s : Scan) (n : string) :
  let s' := scan_stashable_step layer_name layer s (namespaced layer n) in
  popped s' = popped s
  ∧ (∀ key, key ∈ stashed s' ↔
       key ∈ stashed s
       ∨ ((n ∉ poppable_names (class_of layer)) ∧ namespaced layer n = key))
  ∧ ∃ new, msgs s' = msgs s ++ new
      ∧ ∀ x, x ∈ new ↔
          (n ∉ poppable_names (class_of layer))
          ∧ namespaced layer n ∈ stashed s
          ∧ x = msg_restashed layer_name n.
Proof.
  rewrite scan_stashable_step_eq.
  destruct (decide (n ∈ poppable_names (class_of layer))) as [HnP|HnP];
    [|destruct (decide (namespaced layer n ∈ stashed s)) as [Hin|Hin]];
    cbn [stashed popped msgs append].
  - split_and!; [done|naive_solver|].
    exists []. split; [by rewrite app_nil_r|].
    intros x. rewrite elem_of_nil. naive_solver.
  - split_and!; [done|naive_solver|].
    exists [msg_restashed layer_name n]. split; [done|].
    intros x. rewrite list_elem_of_singleton. naive_solver.
  - split_and!; [done| |].
    + intros key. rewrite elem_of_union, elem_of_singleton. naive_solver.
    + exists []. split; [by rewrite app_nil_r|].
      intros x. rewrite elem_of_nil. naive_solver.
Qed.

(** The loop over the stashable names: the keys it marks as stashed and the
    messages it appends. *)
Lemma scan_stashable_names (layer_name : string) (layer : Skippable)
    (names : list string) (s : Scan) :
  NoDup names →
  let s' := foldl (scan_stashable_step layer_name layer) s
              (namespaced layer <$> names) in
  popped s' = popped s
  ∧ (∀ key, key ∈ stashed s' ↔
       key ∈ stashed s
       ∨ (snd key ∈ names
          ∧ (snd key ∉ poppable_names (class_of layer))
          ∧ namespaced layer (snd key) = key))
  ∧ ∃ new, msgs s' = msgs s ++ new
      ∧ ∀ x, x ∈ new ↔
          ∃ n, n ∈ names
               ∧ (n ∉ poppable_names (class_of layer))
               ∧ namespaced layer n ∈ stashed s
               ∧ x = msg_restashed layer_name n.
Proof.
  revert s. induction names as [|n names IH]; intros s Hnd.
  - simpl. split_and!; [done| |].
    + intros key. rewrite elem_of_nil. naive_solver.
    + exists []. split; [by rewrite app_nil_r|].
      intros x. setoid_rewrite elem_of_nil. naive_solver.
  - apply NoDup_cons in Hnd as [Hn Hnd].
    rewrite fmap_cons. cbn [foldl].
    destruct (scan_stashable_step_spec layer_name layer s n)
      as (Hpop1 & Hst1 & new1 & Hmsgs1 & Hnew1).
    destruct (IH (scan_stashable_step layer_name layer s (namespaced layer n))
                Hnd) as (Hpop & Hst & new & Hmsgs & Hnew).
    cbv zeta in *.
    assert (∀ n', n' ∈ names →
              namespaced layer n'
                ∈ stashed (scan_stashable_step layer_name layer s
                             (namespaced layer n))
              ↔ namespaced layer n' ∈ stashed s) as Hsame.
    { intros n' Hn'. rewrite Hst1. split; [|by left].
      intros [?|[_ Heq%namespaced_inj]]; [done|]. by subst. }
    split_and!.
    + by rewrite Hpop.
    + intros key. rewrite Hst, Hst1, elem_of_cons. split.
      * intros [[?|[? <-]]|(?&?&?)]; [by left|right|right].
        -- split_and!; [by left|done|done].
        -- split_and!; [by right|done|done].
      * intros [?|([Heq|?]&?&Hkey)]; [by left; left| |by right].
        left. right. rewrite <-Heq. done.
    + exists (new1 ++ new). split; [by rewrite Hmsgs, Hmsgs1, app_assoc|].
      intros x. rewrite elem_of_app, Hnew1, Hnew. split.
      * intros [(?&?&->)|(n'&?&?&?&->)].
        -- exists n. split_and!; [by left|done..].
        -- exists n'. split_and!; [by right|done|by apply Hsame|done].
      * intros (n'&[->|?]%elem_of_cons&?&?&->); [by left|].
        right. exists n'. split_and!; [done|done|by apply Hsame|done].
Qed.

(** One turn of the loop over the poppable names. *)
Lemma scan_poppable_step_spec (layer_name : string) (layer : Skippable)
    (s : Scan) (n : string) :
  let s' := scan_poppable_step layer_name layer s (namespaced layer n) in
  stashed s' = stashed s
  ∧ (∀ key, key ∈ popped s' ↔
       key ∈ popped s
       ∨ ((n ∉ stashable_names (class_of layer))
          ∧ namespaced layer n ∈ stashed s
          ∧ namespaced layer n = key))
  ∧ ∃ new, msgs s' = msgs s ++ new
      ∧ ∀ x, x ∈ new ↔
          (n ∉ stashable_names (class_of layer))
          ∧ ((namespaced layer n ∈ popped s
              ∧ x = msg_repopped layer_name n)
             ∨ ((namespaced layer n ∉ popped s)
                ∧ (namespaced layer n ∉ stashed s)
                ∧ x = msg_not_stashed layer_name n)).
Proof.
  rewrite scan_poppable_step_eq.
  destruct (decide (n ∈ stashable_names (class_of layer))) as [HnS|HnS];
    [|destruct (decide (namespaced layer n ∈ popped s)) as [Hin|Hin];
      [|destruct (decide (namespaced layer n ∉ stashed s)) as [Hst|Hst]]];
    cbn [stashed popped msgs append].
  - split_and!; [done|naive_solver|].
    exists []. split; [by rewrite app_nil_r|].
    intros x. rewrite elem_of_nil. naive_solver.
  - split_and!; [done|naive_solver|].
    exists [msg_repopped layer_name n]. split; [done|].
    intros x. rewrite list_elem_of_singleton. naive_solver.
  - split_and!; [done|naive_solver|].
    exists [msg_not_stashed layer_name n]. split; [done|].
    intros x. rewrite list_elem_of_singleton. naive_solver.
  - apply dec_stable in Hst. split_and!; [done| |].
    + intros key. rewrite elem_of_union, elem_of_singleton. naive_solver.
    + exists []. split; [by rewrite app_nil_r|].
      intros x. rewrite elem_of_nil. naive_solver.
Qed.

(** The loop over the poppable names: the keys it marks as popped and the
    messages it appends. *)
Lemma scan_poppable_names (layer_name : string) (layer : Skippable)
    (names : list string) (s : Scan) :
  NoDup names →
  let s' := foldl (scan_poppable_step layer_name layer) s
              (namespaced layer <$> names) in
  stashed s' = stashed s
  ∧ (∀ key, key ∈ popped s' ↔
       key ∈ popped s
       ∨ (snd key ∈ names
          ∧ (snd key ∉ stashable_names (class_of layer))
          ∧ namespaced layer (snd key) = key
          ∧ key ∈ stashed s))
  ∧ ∃ new, msgs s' = msgs s ++ new
      ∧ ∀ x, x ∈ new ↔
          ∃ n, n ∈ names
               ∧ (n ∉ stashable_names (class_of layer))
               ∧ ((namespaced layer n ∈ popped s
                   ∧ x = msg_repopped layer_name n)
                  ∨ ((namespaced layer n ∉ popped s)
                     ∧ (namespaced layer n ∉ stashed s)
                     ∧ x = msg_not_stashed layer_name n)).
Proof.
  revert s. induction names as [|n names IH]; intros s Hnd.
  - simpl. split_and!; [done| |].
    + intros key. rewrite elem_of_nil. naive_solver.
    + exists []. split; [by rewrite app_nil_r|].
      intros x. setoid_rewrite elem_of_nil. naive_solver.
  - apply NoDup_cons in Hnd as [Hn Hnd].
    rewrite fmap_cons. cbn [foldl].
    destruct (scan_poppable_step_spec layer_name layer s n)
      as (Hst1 & Hpop1 & new1 & Hmsgs1 & Hnew1).
    destruct (IH (scan_poppable_step layer_name layer s (namespaced layer n))
                Hnd) as (Hst & Hpop & new & Hmsgs & Hnew).
    cbv zeta in *.
    assert (∀ n', n' ∈ names →
              namespaced layer n'
                ∈ popped (scan_poppable_step layer_name layer s
                            (namespaced layer n))
              ↔ namespaced layer n' ∈ popped s) as Hsame.
    { intros n' Hn'. rewrite Hpop1. split; [|by left].
      intros [?|(_ & _ & Heq%namespaced_inj)]; [done|]. by subst. }
    split_and!.
    + by rewrite Hst.
    + intros key. rewrite Hpop, Hpop1, Hst1, elem_of_cons. split.
      * intros [[?|(?&?&<-)]|(?&?&?&?)]; [by left|right|right].
        -- split_and!; [by left|done..].
        -- split_and!; [by right|done..].
      * intros [?|([Heq|?]&?&Hkey&?)]; [by left; left| |by right].
        left. right. rewrite <-Heq. by rewrite Hkey.
    + exists (new1 ++ new). split; [by rewrite Hmsgs, Hmsgs1, app_assoc|].
      intros x. rewrite elem_of_app, Hnew1, Hnew. split.
      * intros [(?&?)|(n'&Hn'&?&Hx)].
        -- exists n. split_and!; [by left|done..].
        -- exists n'. split_and!; [by right|done|].
           rewrite Hsame, Hst1 in Hx by done. done.
      * intros (n'&[->|Hn']%elem_of_cons&?&Hx); [by left|].
        right. exists n'. split_and!; [done|done|].
        by rewrite Hsame, Hst1.
Qed.

(** The messages of one layer tell the kind of finding and the name. *)
Lemma chars_app (a b : string) :
  String.list_ascii_of_string (a +:+ b)
  = String.list_ascii_of_string a ++ String.list_ascii_of_string b.
Proof.
  induction a as [|c a IH]; [done|].
  change (String c a +:+ b) with (String c (a +:+ b)). simpl. by rewrite IH.
Qed.

Lemma chars_inj (a b : string) :
  String.list_ascii_of_string a = String.list_ascii_of_string b → a = b.
Proof.
  intros H.
  rewrite <-(String.string_of_list_ascii_of_string a),
    <-(String.string_of_list_ascii_of_string b).
  by rewrite H.
Qed.

(** Turns an equation between two messages of the same layer into one
    between what follows the layer's name, as lists of characters. *)
Ltac chars H :=
  apply (f_equal String.list_ascii_of_string) in H;
  unfold msg_both, msg_restashed, msg_repopped, msg_not_stashed, quote in H;
  rewrite !chars_app in H; simpl in H;
  apply (inj (cons _)) in H; apply app_inv_head in H; simpl in H.

(** Compares from the end what follows the name. *)
Ltac tails H :=
  simplify_eq;
  apply (f_equal reverse) in H; rewrite !reverse_app in H; cbn in H;
  discriminate H.

Ltac same_tail H :=
  simplify_eq; do 2 apply app_inv_tail in H; by apply chars_inj.

Lemma msg_restashed_inj (ln a b : string) :
  msg_restashed ln a = msg_restashed ln b → a = b.
Proof. intros H. chars H. same_tail H. Qed.

Lemma msg_repopped_inj (ln a b : string) :
  msg_repopped ln a = msg_repopped ln b → a = b.
Proof. intros H. chars H. same_tail H. Qed.

Lemma msg_not_stashed_inj (ln a b : string) :
  msg_not_stashed ln a = msg_not_stashed ln b → a = b.
Proof. intros H. chars H. same_tail H. Qed.

Lemma msg_restashed_both (ln a b : string) :
  msg_restashed ln a ≠ msg_both ln b.
Proof. intros H. chars H. done. Qed.

Lemma msg_repopped_both (ln a b : string) :
  msg_repopped ln a ≠ msg_both ln b.
Proof. intros H. chars H. done. Qed.

Lemma msg_restashed_not_stashed (ln a b : string) :
  msg_restashed ln a ≠ msg_not_stashed ln b.
Proof. intros H. chars H. done. Qed.

Lemma msg_repopped_not_stashed (ln a b : string) :
  msg_repopped ln a ≠ msg_not_stashed ln b.
Proof. intros H. chars H. done. Qed.

Lemma msg_restashed_repopped (ln a b : string) :
  msg_restashed ln a ≠ msg_repopped ln b.
Proof. intros H. chars H. tails H. Qed.

Lemma msg_not_stashed_both (ln a b : string) :
  msg_not_stashed ln a ≠ msg_both ln b.
Proof. intros H. chars H. tails H. Qed.

(** What the scan of one skippable layer does to the three variables. *)
Lemma scan_layer_spec (layer_name : string) (layer : Skippable) (s : Scan) :
  let s' := scan_layer s (layer_name, Skip layer) in
  (∀ key, key ∈ stashed s' ↔ key ∈ stashed s ∨ stashes layer key)
  ∧ (∀ key, key ∈ popped s' ↔
       key ∈ popped s ∨ (pops layer key ∧ key ∈ stashed s))
  ∧ ∃ new, msgs s' = msgs s ++ new
      ∧ ∀ x, x ∈ new ↔
          (∃ n, n ∈ stashable_names (class_of layer)
                ∧ n ∈ poppable_names (class_of layer)
                ∧ x = msg_both layer_name n)
          ∨ (∃ n, stashes layer (namespaced layer n)
                  ∧ namespaced layer n ∈ stashed s
                  ∧ x = msg_restashed layer_name n)
          ∨ (∃ n, pops layer (namespaced layer n)
                  ∧ namespaced layer n ∈ popped s
                  ∧ x = msg_repopped layer_name n)
          ∨ (∃ n, pops layer (namespaced layer n)
                  ∧ (namespaced layer n ∉ stashed s)
                  ∧ (namespaced layer n ∉ popped s)
                  ∧ x = msg_not_stashed layer_name n).
Proof.
  unfold scan_layer, scan_poppable, scan_stashable, scan_both.
  unfold stashable, poppable. rewrite scan_both_names.
  set (s0 := {| stashed := stashed s; popped := popped s;
                msgs := msgs s ++ _ |}).
  destruct (scan_stashable_names layer_name layer
              (elements (stashable_names (class_of layer))) s0)
    as (Hpop1 & Hst1 & new1 & Hmsgs1 & Hnew1); [apply NoDup_elements|].
  set (s1 := foldl (scan_stashable_step layer_name layer) s0 _) in *.
  destruct (scan_poppable_names layer_name layer
              (elements (poppable_names (class_of layer))) s1)
    as (Hst2 & Hpop2 & new2 & Hmsgs2 & Hnew2); [apply NoDup_elements|].
  set (s2 := foldl (scan_poppable_step layer_name layer) s1 _) in *.
  cbv zeta in *. clearbody s1 s2. subst s0. cbn [stashed popped msgs] in *.
  assert (∀ key, key ∈ stashed s1 ↔ key ∈ stashed s ∨ stashes layer key)
    as Hstashed.
  { intros key. rewrite Hst1. unfold stashes.
    rewrite elem_of_elements. done. }
  assert (∀ key, pops layer key → key ∈ stashed s1 ↔ key ∈ stashed s)
    as Hpopkey.
  { intros key (HP & HS & _). rewrite Hstashed. split; [|by left].
    by intros [?|(? & ? & _)]. }
  split_and!.
  - intros key. by rewrite Hst2.
  - intros key. rewrite Hpop2, Hpop1. unfold pops.
    rewrite elem_of_elements. split.
    + intros [?|(HP & HS & Hkey & Hin)]; [by left|right].
      split; [done|]. by apply (Hpopkey key).
    + intros [?|((HP & HS & Hkey) & Hin)]; [by left|right].
      split_and!; [done..|]. by apply (Hpopkey key).
  - exists ((msg_both layer_name
               <$> elements (stashable_names (class_of layer)
                               ∩ poppable_names (class_of layer)))
            ++ new1 ++ new2).
    split; [by rewrite Hmsgs2, Hmsgs1, <-!app_assoc|].
    intros x. rewrite !elem_of_app, list_elem_of_fmap, Hnew1, Hnew2.
    unfold stashes, pops. setoid_rewrite elem_of_elements.
    setoid_rewrite elem_of_intersection. rewrite Hpop1.
    assert (∀ n, n ∈ poppable_names (class_of layer) →
                 n ∉ stashable_names (class_of layer) →
                 namespaced layer n ∈ stashed s1
                 ↔ namespaced layer n ∈ stashed s) as Hpopname.
    { intros n ? ?. by apply Hpopkey. }
    clear Hpopkey Hstashed Hst1 Hst2 Hpop2 Hnew1 Hnew2 Hmsgs1 Hmsgs2.
    cbn [snd namespaced]. split.
    + intros [(n & -> & ? & ?)|[(n & ? & ? & ? & ->)|(n & HP & HS & Hx)]].
      * left. by exists n.
      * right. left. by exists n.
      * destruct Hx as [[? ->]|(? & Hns & ->)].
        -- right. right. left. by exists n.
        -- right. right. right. exists n. rewrite Hpopname in Hns by done.
           done.
    + intros [(n & ? & ? & ->)|[(n & (? & ? & _) & ? & ->)
               |[(n & (? & ? & _) & ? & ->)|(n & (? & ? & _) & ? & ? & ->)]]].
      * left. by exists n.
      * right. left. by exists n.
      * right. right. exists n. split_and!; [done..|]. by left.
      * right. right. exists n. split_and!; [done..|]. right.
        by rewrite Hpopname.
Qed.

End ScanProperties.

(** ** The verifier: the scan finds the violations, and only them *)

Section VerifyComplete.

Context {Tensor Args : Type}.

#[local] Abbreviation Skippable := (Skippable Tensor Args).
#[local] Abbreviation Sequential := (Sequential Tensor Args).

Lemma snoc_split {A : Type} (l before after : list A) (x y : A) :
  l ++ [x] = before ++ y :: after ↔
  (after = [] ∧ before = l ∧ y = x)
  ∨ (∃ after', after = after' ++ [x] ∧ l = before ++ y :: after').
Proof.
  split.
  - intros Heq. destruct after as [|z after _] using rev_ind.
    + left. apply app_inj_tail in Heq as [-> ->]. done.
    + right. exists after.
      change (before ++ y :: after ++ [z])
        with (before ++ (y :: after) ++ [z]) in Heq.
      rewrite app_assoc in Heq. apply app_inj_tail in Heq as [-> ->]. done.
  - intros [(-> & -> & ->)|(after' & -> & ->)]; [done|].
    by rewrite <-app_assoc.
Qed.

Lemma stashed_in_snoc (layers : Sequential) (child : string * Layer Tensor Args)
    (key : SkipKey) :
  stashed_in (layers ++ [child]) key ↔
  stashed_in layers key
  ∨ (∃ layer_name layer, child = (layer_name, Skip layer) ∧ stashes layer key).
Proof.
  unfold stashed_in. split.
  - intros (ln & layer & [Hin|Hin%list_elem_of_singleton]%elem_of_app & Hst).
    + left. by exists ln, layer.
    + right. by exists ln, layer.
  - intros [(ln & layer & Hin & Hst)|(ln & layer & -> & Hst)].
    + exists ln, layer. split; [|done]. apply elem_of_app. by left.
    + exists ln, layer. split; [|done]. apply elem_of_app. right.
      by apply list_elem_of_singleton.
Qed.

Lemma stashed_in_app_l (before after : Sequential) (key : SkipKey) :
  stashed_in before key → stashed_in (before ++ after) key.
Proof.
  intros (ln & layer & Hin & Hst). exists ln, layer. split; [|done].
  apply elem_of_app. by left.
Qed.

Lemma popped_in_stashed_in (layers : Sequential) (key : SkipKey) :
  popped_in layers key → stashed_in layers key.
Proof.
  intros (before & ln & layer & after & -> & _ & Hst).
  by apply stashed_in_app_l.
Qed.

Lemma popped_in_snoc (layers : Sequential) (child : string * Layer Tensor Args)
    (key : SkipKey) :
  popped_in (layers ++ [child]) key ↔
  popped_in layers key
  ∨ (∃ layer_name layer,
       child = (layer_name, Skip layer)
       ∧ pops layer key ∧ stashed_in layers key).
Proof.
  unfold popped_in. split.
  - intros (before & ln & layer & after & Heq & Hpops & Hst).
    apply snoc_split in Heq as [(-> & -> & <-)|(after' & -> & ->)].
    + right. by exists ln, layer.
    + left. by exists before, ln, layer, after'.
  - intros [(before & ln & layer & after & -> & Hpops & Hst)
            |(ln & layer & -> & Hpops & Hst)].
    + exists before, ln, layer, (after ++ [child]).
      split; [by rewrite <-app_assoc|done].
    + by exists layers, ln, layer, [].
Qed.

Lemma violation_at_layers_snoc (layers : Sequential)
    (child : string * Layer Tensor Args) (v : Violation) :
  violation_at_layers (layers ++ [child]) v ↔
  violation_at_layers layers v
  ∨ (∃ layer_name layer,
       child = (layer_name, Skip layer)
       ∧ layer_violation layers layer_name layer v).
Proof.
  unfold violation_at_layers. split.
  - intros (before & ln & layer & after & Heq & Hv).
    apply snoc_split in Heq as [(-> & -> & <-)|(after' & -> & ->)].
    + right. by exists ln, layer.
    + left. by exists before, ln, layer, after'.
  - intros [(before & ln & layer & after & -> & Hv)|(ln & layer & -> & Hv)].
    + exists before, ln, layer, (after ++ [child]).
      split; [by rewrite <-app_assoc|done].
    + by exists layers, ln, layer, [].
Qed.

Lemma scanned_nil :
  scanned (Tensor:=Tensor) (Args:=Args) []
    {| stashed := ∅; popped := ∅; msgs := [] |}.
Proof.
  split_and!.
  - intros key. split; [by intros ?%not_elem_of_empty|].
    by intros (? & ? & ?%elem_of_nil & _).
  - intros key. split; [by intros ?%not_elem_of_empty|].
    intros (before & ? & ? & ? & Heq & _). by destruct before.
  - intros x. split; [by intros ?%elem_of_nil|].
    intros (v & (before & ? & ? & ? & Heq & _) & _). by destruct before.
Qed.

(** The findings at one layer, against the sets of the scan. *)
Lemma layer_violation_scanned (layers : Sequential) (s : Scan)
    (layer_name : string) (layer : Skippable) (x : string) :
  scanned layers s →
  (∃ v, layer_violation layers layer_name layer v ∧ describe v = x) ↔
  (∃ n, n ∈ stashable_names (class_of layer)
        ∧ n ∈ poppable_names (class_of layer)
        ∧ x = msg_both layer_name n)
  ∨ (∃ n, stashes layer (namespaced layer n)
          ∧ namespaced layer n ∈ stashed s
          ∧ x = msg_restashed layer_name n)
  ∨ (∃ n, pops layer (namespaced layer n)
          ∧ namespaced layer n ∈ popped s
          ∧ x = msg_repopped layer_name n)
  ∨ (∃ n, pops layer (namespaced layer n)
          ∧ (namespaced layer n ∉ stashed s)
          ∧ (namespaced layer n ∉ popped s)
          ∧ x = msg_not_stashed layer_name n).
Proof.
  intros (Hst & Hpop & _). split.
  - intros (v & Hv & <-). destruct Hv as [n ? ?|n ? ?|n ? ?|n ? Hns].
    + left. by exists n.
    + right. left. exists n. by rewrite Hst.
    + right. right. left. exists n. by rewrite Hpop.
    + right. right. right. exists n. rewrite Hst, Hpop.
      split_and!; [done|done| |done].
      intros ?%popped_in_stashed_in. done.
  - intros [(n & ? & ? & ->)|[(n & ? & ?%Hst & ->)
            |[(n & ? & ?%Hpop & ->)|(n & ? & Hns & _ & ->)]]].
    + exists (DeclaredBoth layer_name n). split; [by constructor|done].
    + exists (Restashed layer_name n). split; [by constructor|done].
    + exists (Repopped layer_name n). split; [by constructor|done].
    + exists (NotStashed layer_name n). split; [|done].
      constructor; [done|]. by rewrite <-Hst.
Qed.

Lemma scanned_snoc (layers : Sequential) (s : Scan)
    (child : string * Layer Tensor Args) :
  scanned layers s → scanned (layers ++ [child]) (scan_layer s child).
Proof.
  intros Hs. pose proof Hs as (Hst & Hpop & Hmsgs).
  destruct child as [layer_name [layer|]].
  - destruct (scan_layer_spec layer_name layer s)
      as (Hst' & Hpop' & new & Hmsgs' & Hnew).
    cbv zeta in *. split_and!.
    + intros key. rewrite Hst', stashed_in_snoc, Hst. split.
      * intros [?|?]; [by left|right]. by exists layer_name, layer.
      * intros [?|(? & ? & [= <- <-] & ?)]; [by left|by right].
    + intros key. rewrite Hpop', popped_in_snoc, Hpop, Hst. split.
      * intros [?|[? ?]]; [by left|right]. by exists layer_name, layer.
      * intros [?|(? & ? & [= <- <-] & ? & ?)]; [by left|by right].
    + intros x. rewrite Hmsgs', elem_of_app, Hmsgs, Hnew.
      rewrite <-(layer_violation_scanned layers s layer_name layer x Hs).
      setoid_rewrite violation_at_layers_snoc. split.
      * intros [(v & ? & ?)|(v & ? & ?)].
        -- exists v. split; [by left|done].
        -- exists v. split; [right|done]. by exists layer_name, layer.
      * intros (v & [?|(? & ? & [= <- <-] & ?)] & ?).
        -- left. by exists v.
        -- right. by exists v.
  - simpl. split_and!.
    + intros key. rewrite stashed_in_snoc, Hst. split; [by left|].
      by intros [?|(? & ? & ? & _)].
    + intros key. rewrite popped_in_snoc, Hpop. split; [by left|].
      by intros [?|(? & ? & ? & _)].
    + intros x. rewrite Hmsgs. setoid_rewrite violation_at_layers_snoc.
      split.
      * intros (v & ? & ?). exists v. split; [by left|done].
      * intros (v & [?|(? & ? & ? & _)] & ?); [|done]. by exists v.
Qed.

Lemma scan_layers_scanned (module : Sequential) :
  scanned module (scan_layers module).
Proof.
  unfold scan_layers.
  induction module as [|child module IH] using rev_ind.
  - apply scanned_nil.
  - rewrite foldl_app. by apply scanned_snoc.
Qed.

Lemma scan_unpopped_keys (keys : list SkipKey) (s : Scan) :
  msgs (foldl (λ s '(_, name), append (msg_not_popped name) s) s keys)
  = msgs s ++ ((λ key, msg_not_popped (snd key)) <$> keys).
Proof.
  revert s. induction keys as [|[ns name] keys IH]; intros s.
  - simpl. by rewrite app_nil_r.
  - simpl. rewrite IH. simpl. by rewrite <-app_assoc.
Qed.

(** The messages of [verify_skippables] are the descriptions of the
    violations of the sequence. *)
Lemma findings_violations (module : Sequential) (x : string) :
  x ∈ findings module ↔ ∃ v, violation module v ∧ describe v = x.
Proof.
  destruct (scan_layers_scanned module) as (Hst & Hpop & Hmsgs).
  unfold findings, scan_unpopped. rewrite scan_unpopped_keys.
  rewrite elem_of_app, Hmsgs, list_elem_of_fmap.
  setoid_rewrite elem_of_elements. setoid_rewrite elem_of_difference.
  setoid_rewrite Hst. setoid_rewrite Hpop. split.
  - intros [(v & ? & ?)|([ns name] & -> & ? & ?)].
    + exists v. split; [by constructor|done].
    + exists (NotPopped name). split; [|done]. by apply (not_popped _ ns).
  - intros (v & Hv & <-). destruct Hv as [v ?|ns name ? ?].
    + left. by exists v.
    + right. by exists (ns, name).
Qed.

Lemma mentions_verify_message (x : string) (msgs : list string) :
  x ∈ msgs → mentions x (verify_message msgs).
Proof.
  intros Hx. unfold verify_message.
  do 3 apply mentions_app_r.
  apply (mentions_trans _ ("* " +:+ x)).
  - apply mentions_app_r, mentions_refl.
  - apply mentions_join, list_elem_of_fmap. by exists x.
Qed.

(** C2: when the sequence has violations, [verify_skippables] raises one
    [TypeError].  Its message is the heading, an empty line, and one line
    [* ...] for each violation of the sequence and for nothing else, each in
    the words written out below, with the name of the layer and the name of
    the skip tensor (for a tensor left stashed, its name alone); so the
    message contains the line of every violation, of any two of them too.
    When the sequence has no violation, [verify_skippables] returns. *)
Theorem verify_skippables_reports_all (module : Sequential) :
  ((∃ v, violation module v) →
   ∃ lines msg,
     verify_skippables module = Raise (TypeError msg)
     ∧ msg = "one or more pairs of stash and pop not matched:"
               +:+ newline +:+ newline
               +:+ String.concat newline ((λ x, "* " +:+ x) <$> lines)
     ∧ (∀ x, x ∈ lines ↔
          ∃ v, violation module v
               ∧ x = match v with
                     | DeclaredBoth layer_name name =>
                         "'" +:+ layer_name +:+ "' declared '" +:+ name
                           +:+ "' both as stashable and as poppable"
                     | Restashed layer_name name =>
                         "'" +:+ layer_name +:+ "' redeclared '" +:+ name
                           +:+ "' as stashable"
                     | Repopped layer_name name =>
                         "'" +:+ layer_name +:+ "' redeclared '" +:+ name
                           +:+ "' as poppable"
                     | NotStashed layer_name name =>
                         "'" +:+ layer_name +:+ "' declared '" +:+ name
                           +:+ "' as poppable but it was not stashed"
                     | NotPopped name =>
                         "any module did not declare '" +:+ name
                           +:+ "' as poppable"
                     end)
     ∧ ∀ x, x ∈ lines → mentions ("* " +:+ x) msg)
  ∧ ((∀ v, ¬ violation module v) → verify_skippables module = Ok tt).
Proof.
  unfold verify_skippables. split.
  - intros [v0 Hv0].
    assert (describe v0 ∈ findings module) as Hin.
    { apply findings_violations. by exists v0. }
    exists (findings module), (verify_message (findings module)).
    split_and!.
    + destruct (findings module) as [|m ms] eqn:Hfind;
        [by apply elem_of_nil in Hin|done].
    + done.
    + intros x. rewrite findings_violations.
      split; intros (v & Hv & Hx); exists v; (split; [done|]); subst x;
        destruct v; unfold describe, msg_both, msg_restashed, msg_repopped,
          msg_not_stashed, msg_not_popped, quote;
        by rewrite ?string_app_assoc.
    + intros x Hx. unfold verify_message. do 3 apply mentions_app_r.
      apply mentions_join, list_elem_of_fmap. by exists x.
  - intros Hnone. destruct (findings module) as [|m ms] eqn:Hfind; [done|].
    assert (m ∈ findings module) as Hin by (rewrite Hfind; left).
    apply findings_violations in Hin as (v & Hv & _).
    by destruct (Hnone v).
Qed.

End VerifyComplete.

(** ** A name declared on both sides of one layer *)

Section SelfConflict.

Context {Tensor Args : Type}.

#[local] Abbreviation Skippable := (Skippable Tensor Args).
#[local] Abbreviation Sequential := (Sequential Tensor Args).

(** Two states of the scan with the same two sets are taken by a step to
    two states with the same two sets, and get the same new messages. *)
#[local] Abbreviation alike s1 s2 r1 r2 :=
  ((stashed s1 = stashed s2 ∧ popped s1 = popped s2) →
   (stashed r1 = stashed r2 ∧ popped r1 = popped r2)
   ∧ ∃ new, msgs r1 = msgs s1 ++ new ∧ msgs r2 = msgs s2 ++ new).

Lemma foldl_alike {A : Type} (f : Scan → A → Scan) (l : list A) :
  (∀ s1 s2 a, alike s1 s2 (f s1 a) (f s2 a)) →
  ∀ s1 s2, alike s1 s2 (foldl f s1 l) (foldl f s2 l).
Proof.
  intros Hf. induction l as [|a l IH]; intros s1 s2 Hs; simpl.
  - split; [done|]. exists []. by rewrite !app_nil_r.
  - destruct (Hf s1 s2 a Hs) as (Hs' & new1 & H1 & H2).
    destruct (IH _ _ Hs') as (Hs'' & new2 & H3 & H4).
    split; [done|]. exists (new1 ++ new2).
    by rewrite H3, H4, H1, H2, <-!app_assoc.
Qed.

Lemma append_alike (msg : string) (s1 s2 : Scan) :
  alike s1 s2 (append msg s1) (append msg s2).
Proof. intros Hs. split; [done|]. by exists [msg]. Qed.

Lemma scan_stashable_step_alike (layer_name : string) (layer : Skippable)
    (s1 s2 : Scan) (key : SkipKey) :
  alike s1 s2 (scan_stashable_step layer_name layer s1 key)
    (scan_stashable_step layer_name layer s2 key).
Proof.
  intros [Hst Hpo]. destruct key as [ns name].
  unfold scan_stashable_step, append. rewrite Hst.
  repeat case_decide; cbn [stashed popped msgs]; rewrite ?Hst, ?Hpo;
    (split; [done|]);
    first [by exists []; rewrite !app_nil_r | by eexists [_]].
Qed.

Lemma scan_poppable_step_alike (layer_name : string) (layer : Skippable)
    (s1 s2 : Scan) (key : SkipKey) :
  alike s1 s2 (scan_poppable_step layer_name layer s1 key)
    (scan_poppable_step layer_name layer s2 key).
Proof.
  intros [Hst Hpo]. destruct key as [ns name].
  unfold scan_poppable_step, append. rewrite Hst, Hpo.
  repeat case_decide; cbn [stashed popped msgs]; rewrite ?Hst, ?Hpo;
    (split; [done|]);
    first [by exists []; rewrite !app_nil_r | by eexists [_]].
Qed.

Lemma scan_layer_alike (s1 s2 : Scan) (child : string * Layer Tensor Args) :
  alike s1 s2 (scan_layer s1 child) (scan_layer s2 child).
Proof.
  intros Hs. destruct child as [layer_name [layer|]]; simpl.
  - unfold scan_poppable, scan_stashable, scan_both.
    destruct (foldl_alike (λ s name, append (msg_both layer_name name) s)
                (elements (stashable_names (class_of layer)
                             ∩ poppable_names (class_of layer)))
                (λ s1 s2 a, append_alike _ s1 s2) s1 s2 Hs)
      as (Hs1 & new1 & H1 & H1').
    destruct (foldl_alike (scan_stashable_step layer_name layer)
                (stashable layer)
                (λ s1 s2 a, scan_stashable_step_alike _ _ s1 s2 a) _ _ Hs1)
      as (Hs2 & new2 & H2 & H2').
    destruct (foldl_alike (scan_poppable_step layer_name layer)
                (poppable layer)
                (λ s1 s2 a, scan_poppable_step_alike _ _ s1 s2 a) _ _ Hs2)
      as (Hs3 & new3 & H3 & H3').
    split; [done|]. exists (new1 ++ new2 ++ new3).
    by rewrite H3, H3', H2, H2', H1, H1', <-!app_assoc.
  - split; [done|]. exists []. by rewrite !app_nil_r.
Qed.

(** A name declared on both sides takes no part in what the layer stashes
    and pops: the layer stashes and pops what it would without the name. *)
Lemma stashes_undeclare (name : string) (layer : Skippable) (key : SkipKey) :
  name ∈ poppable_names (class_of layer) →
  stashes (undeclare name layer) key ↔ stashes layer key.
Proof.
  intros HP. unfold stashes, undeclare, namespaced. cbn.
  rewrite !elem_of_difference, elem_of_singleton.
  split.
  - intros ([? ?] & Hn & ?). split_and!; [done| |done].
    intros ?. apply Hn. done.
  - intros (? & Hn & ?). split_and!; [done| |naive_solver|done].
    intros Heq. apply Hn. by rewrite Heq.
Qed.

Lemma pops_undeclare (name : string) (layer : Skippable) (key : SkipKey) :
  name ∈ stashable_names (class_of layer) →
  pops (undeclare name layer) key ↔ pops layer key.
Proof.
  intros HS. unfold pops, undeclare, namespaced. cbn.
  rewrite !elem_of_difference, elem_of_singleton.
  split.
  - intros ([? ?] & Hn & ?). split_and!; [done| |done].
    intros ?. apply Hn. done.
  - intros (? & Hn & ?). split_and!; [done| |naive_solver|done].
    intros Heq. apply Hn. by rewrite Heq.
Qed.

Lemma msg_both_text (layer_name name : string) :
  msg_both layer_name name
  = "'" +:+ layer_name +:+ "' declared '" +:+ name
      +:+ "' both as stashable and as poppable".
Proof. unfold msg_both, quote. by rewrite ?string_app_assoc. Qed.

Lemma msg_restashed_text (layer_name name : string) :
  msg_restashed layer_name name
  = "'" +:+ layer_name +:+ "' redeclared '" +:+ name +:+ "' as stashable".
Proof. unfold msg_restashed, quote. by rewrite ?string_app_assoc. Qed.

Lemma msg_repopped_text (layer_name name : string) :
  msg_repopped layer_name name
  = "'" +:+ layer_name +:+ "' redeclared '" +:+ name +:+ "' as poppable".
Proof. unfold msg_repopped, quote. by rewrite ?string_app_assoc. Qed.

Lemma msg_not_stashed_text (layer_name name : string) :
  msg_not_stashed layer_name name
  = "'" +:+ layer_name +:+ "' declared '" +:+ name
      +:+ "' as poppable but it was not stashed".
Proof. unfold msg_not_stashed, quote. by rewrite ?string_app_assoc. Qed.

(** The messages for a sequence with a layer that declares [name] on both
    sides: the message for that, and the messages for the sequence in which
    the layer does not declare [name]. *)
Lemma findings_undeclare (before after : Sequential)
    (layer_name name : string) (layer : Skippable) (x : string) :
  name ∈ stashable_names (class_of layer) →
  name ∈ poppable_names (class_of layer) →
  x ∈ findings (before ++ (layer_name, Skip layer) :: after)
  ↔ x = msg_both layer_name name
    ∨ x ∈ findings
            (before ++ (layer_name, Skip (undeclare name layer)) :: after).
Proof.
  intros HS HP. unfold findings, scan_layers.
  rewrite !foldl_app. cbn [foldl].
  generalize (foldl scan_layer {| stashed := ∅; popped := ∅; msgs := [] |}
                before).
  intros s.
  destruct (scan_layer_spec layer_name layer s)
    as (Hst & Hpo & new & Hm & Hnew).
  destruct (scan_layer_spec layer_name (undeclare name layer) s)
    as (Hst' & Hpo' & new' & Hm' & Hnew').
  cbv zeta in *.
  set (s1 := scan_layer s (layer_name, Skip layer)) in *.
  set (s1' := scan_layer s (layer_name, Skip (undeclare name layer))) in *.
  assert (stashed s1 = stashed s1' ∧ popped s1 = popped s1') as Hs1.
  { split; apply set_eq; intros key.
    - by rewrite Hst, Hst', stashes_undeclare.
    - by rewrite Hpo, Hpo', pops_undeclare. }
  destruct (foldl_alike scan_layer after scan_layer_alike s1 s1' Hs1)
    as ([Hst2 Hpo2] & rest & Hrest & Hrest').
  unfold scan_unpopped.
  rewrite !scan_unpopped_keys, Hst2, Hpo2, Hrest, Hrest', Hm, Hm'.
  rewrite !elem_of_app.
  assert (x ∈ new ↔ x = msg_both layer_name name ∨ x ∈ new') as ->;
    [|naive_solver].
  rewrite Hnew, Hnew'. clear Hnew Hnew'.
  assert (∀ n, namespaced (undeclare name layer) n = namespaced layer n)
    as Hns by done.
  setoid_rewrite Hns.
  setoid_rewrite (stashes_undeclare name layer _ HP).
  setoid_rewrite (pops_undeclare name layer _ HS).
  assert ((∃ n, n ∈ stashable_names (class_of layer)
                ∧ n ∈ poppable_names (class_of layer)
                ∧ x = msg_both layer_name n)
          ↔ x = msg_both layer_name name
            ∨ ∃ n, n ∈ stashable_names (class_of (undeclare name layer))
                   ∧ n ∈ poppable_names (class_of (undeclare name layer))
                   ∧ x = msg_both layer_name n) as ->; [|tauto].
  cbn [undeclare class_of stashable_names poppable_names].
  setoid_rewrite elem_of_difference. setoid_rewrite elem_of_singleton.
  split.
  - intros (n & ? & ? & ->).
    destruct (decide (n = name)) as [->|?]; [by left|right]. by exists n.
  - intros [->|(n & [? _] & [? _] & ->)]; [by exists name|by exists n].
Qed.

(** A found message is a line of the message of [verify_skippables]. *)
Lemma mentions_line_verify_message (x : string) (msgs : list string) :
  x ∈ msgs → mentions ("* " +:+ x) (verify_message msgs).
Proof.
  intros Hx. unfold verify_message. do 3 apply mentions_app_r.
  apply mentions_join, list_elem_of_fmap. by exists x.
Qed.

(** C5: in a sequence with a layer that declares [name] both as stashable
    and as poppable, at any place, [verify_skippables] raises [TypeError],
    and the line that says so of that layer and that name is a line of its
    message.  The name takes no part in the accounting at that layer: the
    lines of the message are that line and those that [verify_skippables]
    finds when the layer does not declare [name] at all; and where the scan
    goes through the layer, the key of [name] is marked stashed, or popped,
    after the layer only if it was before, and none of the layer's new
    messages says that the layer redeclared the name or popped it without
    a stash. *)
Theorem declared_both_reported_and_excluded (before after : Sequential)
    (layer_name name : string) (layer : Skippable) :
  name ∈ stashable_names (class_of layer) →
  name ∈ poppable_names (class_of layer) →
  let module := before ++ (layer_name, Skip layer) :: after in
  let line :=
    "'" +:+ layer_name +:+ "' declared '" +:+ name
      +:+ "' both as stashable and as poppable" in
  (∃ lines msg,
     verify_skippables module = Raise (TypeError msg)
     ∧ msg = "one or more pairs of stash and pop not matched:"
               +:+ newline +:+ newline
               +:+ String.concat newline ((λ x, "* " +:+ x) <$> lines)
     ∧ line ∈ lines
     ∧ mentions ("* " +:+ line) msg
     ∧ ∀ x, x ∈ lines ↔
         x = line
         ∨ x ∈ findings
                 (before ++ (layer_name, Skip (undeclare name layer))
                    :: after))
  ∧ (let s := scan_layers before in
     let s' := scan_layers (before ++ [(layer_name, Skip layer)]) in
     (namespaced layer name ∈ stashed s' ↔ namespaced layer name ∈ stashed s)
     ∧ (namespaced layer name ∈ popped s'
        ↔ namespaced layer name ∈ popped s)
     ∧ ∃ new,
         msgs s' = msgs s ++ new
         ∧ line ∈ new
         ∧ ("'" +:+ layer_name +:+ "' redeclared '" +:+ name
              +:+ "' as stashable" ∉ new)
         ∧ ("'" +:+ layer_name +:+ "' redeclared '" +:+ name
              +:+ "' as poppable" ∉ new)
         ∧ ("'" +:+ layer_name +:+ "' declared '" +:+ name
              +:+ "' as poppable but it was not stashed" ∉ new)).
Proof.
  intros HS HP. cbv zeta.
  rewrite <-msg_both_text, <-msg_restashed_text, <-msg_repopped_text,
    <-msg_not_stashed_text.
  split.
  - assert (msg_both layer_name name
              ∈ findings (before ++ (layer_name, Skip layer) :: after))
      as Hin.
    { apply (findings_undeclare before after layer_name name layer _ HS HP).
      by left. }
    exists (findings (before ++ (layer_name, Skip layer) :: after)),
      (verify_message
         (findings (before ++ (layer_name, Skip layer) :: after))).
    split_and!.
    + unfold verify_skippables.
      destruct (findings _) as [|m ms]; [by apply elem_of_nil in Hin|done].
    + done.
    + done.
    + by apply mentions_line_verify_message.
    + intros x.
      apply (findings_undeclare before after layer_name name layer x HS HP).
  - unfold scan_layers. rewrite foldl_app. cbn [foldl].
    generalize (foldl scan_layer
                  {| stashed := ∅; popped := ∅; msgs := [] |} before).
    intros s.
    destruct (scan_layer_spec layer_name layer s)
      as (Hst & Hpop & new & Hmsgs & Hnew).
    cbv zeta in *. split_and!.
    + rewrite Hst. split; [|by left]. by intros [?|(_ & ? & _)].
    + rewrite Hpop. split; [|by left]. by intros [?|[(_ & ? & _) _]].
    + exists new. split_and!; [done|..].
      * apply Hnew. left. by exists name.
      * rewrite Hnew.
        intros [(n & _ & _ & Heq)|[(n & (_ & HnP & _) & _ & Heq)
                 |[(n & _ & _ & Heq)|(n & _ & _ & _ & Heq)]]].
        -- by apply msg_restashed_both in Heq.
        -- apply msg_restashed_inj in Heq. by subst.
        -- by apply msg_restashed_repopped in Heq.
        -- by apply msg_restashed_not_stashed in Heq.
      * rewrite Hnew.
        intros [(n & _ & _ & Heq)|[(n & _ & _ & Heq)
                 |[(n & (_ & HnS & _) & _ & Heq)|(n & _ & _ & _ & Heq)]]].
        -- by apply msg_repopped_both in Heq.
        -- symmetry in Heq. by apply msg_restashed_repopped in Heq.
        -- apply msg_repopped_inj in Heq. by subst.
        -- by apply msg_repopped_not_stashed in Heq.
      * rewrite Hnew.
        intros [(n & _ & _ & Heq)|[(n & _ & _ & Heq)
                 |[(n & _ & _ & Heq)|(n & (_ & HnS & _) & _ & _ & Heq)]]].
        -- by apply msg_not_stashed_both in Heq.
        -- symmetry in Heq. by apply msg_restashed_not_stashed in Heq.
        -- symmetry in Heq. by apply msg_repopped_not_stashed in Heq.
        -- apply msg_not_stashed_inj in Heq. by subst.
Qed.

End SelfConflict.

(** ** The properties on the example stages *)

Section OnExamples.

Import Examples.

#[local] Abbreviation one := (OneTensor 1).
#[local] Abbreviation no_tensors := (∅ : gmap SkipKey (option nat)).

(** C1 as the claim has it fails on two instances of [Stash], made one
    after the other and never isolated: they are distinct objects of the
    same class, both have the key [(None, 'x')] for ['x'], and the tensor
    that the second stashes takes the slot where the first stashed its
    own. *)
Lemma default_namespace_collides :
  let a := fst (new Stash tt ∅) in
  let h1 := snd (new Stash tt ∅) in
  let b := fst (new Stash tt h1) in
  let h2 := snd (new Stash tt h1) in
  a ≠ b
  ∧ h2 !! a = Some (init Stash tt)
  ∧ h2 !! b = Some (init Stash tt)
  ∧ "x" ∈ stashable_names (class_of (init Stash tt))
  ∧ (λ self, namespaced self "x") <$> h2 !! a = Some (None, "x")
  ∧ (λ self, namespaced self "x") <$> h2 !! b = Some (None, "x")
  ∧ forward (init Stash tt) (OneTensor 1) no_tensors
    = (Ok (OneTensor 1), {[ (None, "x") := Some 1 ]})
  ∧ forward (init Stash tt) (OneTensor 2)
      ({[ (None, "x") := Some 1 ]} : gmap SkipKey (option nat))
    = (Ok (OneTensor 2), {[ (None, "x") := Some 2 ]}).
Proof. by vm_compute. Qed.

Lemma namespaced_default_is_shared_witness :
  let a := init Stash tt in
  let b := isolate_self 5%positive (Some ["y"]) (init Stash tt) in
  namespaced a "x" = (None, "x")
  ∧ namespaced b "x" = (None, "x")
  ∧ namespaced a "x" = namespaced b "x".
Proof.
  apply (namespaced_default_is_shared (init Stash tt)
           (isolate_self 5%positive (Some ["y"]) (init Stash tt)) "x").
  - apply as_initialised.
  - apply isolated_elsewhere; [apply as_initialised|by vm_compute].
Defined.

Lemma isolate_rebinds_witness :
  (∃ obj',
     isolate 1%positive 5%positive (Some ["a"; "q"])
       ({[ 1%positive := init Idle tt ]} : gmap ref (Skippable nat unit))
     = (1%positive, <[1%positive := obj']> {[ 1%positive := init Idle tt ]})
     ∧ class_of obj' = class_of (init Idle tt)
     ∧ module obj' = module (init Idle tt)
     ∧ ∀ name,
         namespaces obj' !! name
         = if decide (name ∈ ["a"; "q"]) then Some 5%positive
           else namespaces (init Idle tt) !! name)
  ∧ (∃ obj',
       isolate 1%positive 5%positive None
         ({[ 1%positive := init Idle tt ]} : gmap ref (Skippable nat unit))
       = (1%positive,
          <[1%positive := obj']> {[ 1%positive := init Idle tt ]})
       ∧ class_of obj' = class_of (init Idle tt)
       ∧ module obj' = module (init Idle tt)
       ∧ ∀ name,
           namespaces obj' !! name
           = if decide (name ∈ stashable_names (class_of (init Idle tt))
                        ∨ name ∈ poppable_names (class_of (init Idle tt)))
             then Some 5%positive
             else namespaces (init Idle tt) !! name).
Proof.
  split.
  - apply (isolate_rebinds {[ 1%positive := init Idle tt ]} 1%positive
             (init Idle tt) 5%positive (Some ["a"; "q"])).
    reflexivity.
  - apply (isolate_rebinds {[ 1%positive := init Idle tt ]} 1%positive
             (init Idle tt) 5%positive None).
    reflexivity.
Defined.

Lemma dispatch_fast_path_witness :
  (∀ (St : Type) (hs : string → option nat → M St unit)
     (hp : string → M St (option nat)) (st : St),
      dispatch (init Bare tt) one hs hp st = (Ok one, st))
  ∧ (∀ (T : Type) (tr : SkipTracker nat T) (tracker : T),
      stashable_names (class_of (init Bare tt)) = ∅ →
      poppable_names (class_of (init Bare tt)) = ∅ →
      forward (init Bare tt) one tracker = (Ok one, tracker)).
Proof.
  apply (dispatch_fast_path (init Bare tt) one one). left. reflexivity.
Defined.

Lemma undeclared_command_raises_witness :
  forward (init Stray tt) one no_tensors
  = (Raise (RuntimeError "'b' has not been declared as stashable"),
     no_tensors)
  ∧ forward (init StrayPop tt) one tracker_b
    = (Raise (RuntimeError "'c' has not been declared as poppable"),
       no_tensors).
Proof.
  split.
  - refine (proj1 (undeclared_command_raises (init Stray tt) one
                     no_tensors no_tensors ∅ _ "b" _ _ eq_refl eq_refl)
              None (reaches_here _ _ _ _) _).
    by vm_compute.
  - refine (proj2 (undeclared_command_raises (init StrayPop tt) one
                     tracker_b no_tensors {[ "b" := Some 7 ]} _ "c" _ _
                     eq_refl eq_refl)
              (reaches_here _ _ _ _) _).
    by vm_compute.
Defined.

Lemma forward_loads_poppable_witness :
  ∃ name tracker',
    name ∈ poppable_names (class_of (init Idle tt))
    ∧ no_tensors !! namespaced (init Idle tt) name = None
    ∧ forward (init Idle tt) one no_tensors
      = (Raise (RuntimeError (quote name +:+ " has not been stashed")),
         tracker').
Proof.
  apply (proj2 (forward_loads_poppable (init Idle tt) one no_tensors)).
  exists "b". split; [by vm_compute|reflexivity].
Defined.

(** C3 as the claim has it fails on [Idle]: ['a'] was not stashed and the
    value loaded for ['b'] was not popped, and the error that [forward]
    raises names ['a'] only. *)
Lemma forward_omits_leftover_names :
  let l := {| stashed_tensors := ∅;
              poppable_tensors := {[ "b" := Some 7 ]} |} in
  dispatch (init Idle tt) one (handle_stash (init Idle tt))
    (handle_pop (init Idle tt)) l = (Ok one, l)
  ∧ "a" ∈ stashable_names (class_of (init Idle tt)) ∖ dom (stashed_tensors l)
  ∧ "b" ∈ dom (poppable_tensors l)
  ∧ forward (init Idle tt) one tracker_b
    = (Raise (RuntimeError "'a' must be stashed but have not"), no_tensors)
  ∧ ¬ mentions (quote "b") "'a' must be stashed but have not".
Proof.
  split_and!; [reflexivity|by vm_compute|by vm_compute|reflexivity|].
  intros Hm%mentions_contains. by vm_compute in Hm.
Qed.

Lemma forward_reports_one_kind_witness :
  forward (init Idle tt) one tracker_b
  = (Raise (RuntimeError "'a' must be stashed but have not"), no_tensors)
  ∧ ∀ n, n ∈ stashable_names (class_of (init Idle tt)) ∖ (∅ : gset string) →
         mentions (quote n) "'a'".
Proof.
  refine (proj1 (forward_reports_one_kind (init Idle tt) one one
                   tracker_b no_tensors {[ "b" := Some 7 ]}
                   {| stashed_tensors := ∅;
                      poppable_tensors := {[ "b" := Some 7 ]} |}
                   eq_refl eq_refl) _).
  by vm_compute.
Defined.

Lemma forward_saves_after_checks_witness :
  ∃ e,
    forward (init Idle tt) one tracker_b = (Raise e, no_tensors)
    ∧ ∀ save',
        forward (SkipTracker0 := {| load := load; save := save' |})
          (init Idle tt) one tracker_b
        = (Raise e, no_tensors).
Proof.
  refine (proj1 (forward_saves_after_checks map_tracker (init Idle tt) one one
                   tracker_b no_tensors {[ "b" := Some 7 ]}
                   {| stashed_tensors := ∅;
                      poppable_tensors := {[ "b" := Some 7 ]} |}
                   eq_refl eq_refl) _).
  left. by vm_compute.
Defined.

Lemma verify_accepts_stash_then_pop_witness :
  verify_skippables matched = Ok tt.
Proof.
  apply (verify_accepts_stash_then_pop [] [("1", Plain)] [] "0" "2" "x"
           (init Stash tt) (init Pop tt));
    try reflexivity.
  - constructor.
  - by repeat constructor.
  - constructor.
Defined.

Lemma declared_both_reported_and_excluded_witness :
  (let module := conflicted in
   let line := "'1' declared 'x' both as stashable and as poppable" in
   (∃ lines msg,
      verify_skippables module = Raise (TypeError msg)
      ∧ msg = "one or more pairs of stash and pop not matched:"
                +:+ newline +:+ newline
                +:+ String.concat newline ((λ x, "* " +:+ x) <$> lines)
      ∧ line ∈ lines
      ∧ mentions ("* " +:+ line) msg
      ∧ ∀ x, x ∈ lines ↔
          x = line
          ∨ x ∈ findings
                  [("0", Skip (init Stash tt));
                   ("1", Skip (undeclare "x" (init Both tt)));
                   ("2", Skip (init Pop tt))])
   ∧ (let s := scan_layers [("0", Skip (init Stash tt))] in
      let s' :=
        scan_layers
          [("0", Skip (init Stash tt)); ("1", Skip (init Both tt))] in
      (namespaced (init Both tt) "x" ∈ stashed s'
       ↔ namespaced (init Both tt) "x" ∈ stashed s)
      ∧ (namespaced (init Both tt) "x" ∈ popped s'
         ↔ namespaced (init Both tt) "x" ∈ popped s)
      ∧ ∃ new,
          msgs s' = msgs s ++ new
          ∧ line ∈ new
          ∧ ("'1' redeclared 'x' as stashable" ∉ new)
          ∧ ("'1' redeclared 'x' as poppable" ∉ new)
          ∧ ("'1' declared 'x' as poppable but it was not stashed" ∉ new)))
  ∧ verify_skippables conflicted
    = Raise
        (TypeError
           ("one or more pairs of stash and pop not matched:"
            +:+ newline +:+ newline
            +:+ "* '1' declared 'x' both as stashable and as poppable")).
Proof.
  split; [|reflexivity].
  apply (declared_both_reported_and_excluded
           [("0", Skip (init Stash tt))] [("2", Skip (init Pop tt))]
           "1" "x" (init Both tt)); by vm_compute.
Defined.

Lemma verify_skippables_reports_all_witness :
  (∃ lines msg,
     verify_skippables unmatched = Raise (TypeError msg)
     ∧ msg = "one or more pairs of stash and pop not matched:"
               +:+ newline +:+ newline
               +:+ String.concat newline ((λ x, "* " +:+ x) <$> lines)
     ∧ (∀ x, x ∈ lines ↔
          ∃ v, violation unmatched v
               ∧ x = match v with
                     | DeclaredBoth layer_name name =>
                         "'" +:+ layer_name +:+ "' declared '" +:+ name
                           +:+ "' both as stashable and as poppable"
                     | Restashed layer_name name =>
                         "'" +:+ layer_name +:+ "' redeclared '" +:+ name
                           +:+ "' as stashable"
                     | Repopped layer_name name =>
                         "'" +:+ layer_name +:+ "' redeclared '" +:+ name
                           +:+ "' as poppable"
                     | NotStashed layer_name name =>
                         "'" +:+ layer_name +:+ "' declared '" +:+ name
                           +:+ "' as poppable but it was not stashed"
                     | NotPopped name =>
                         "any module did not declare '" +:+ name
                           +:+ "' as poppable"
                     end)
     ∧ ∀ x, x ∈ lines → mentions ("* " +:+ x) msg)
  ∧ verify_skippables unmatched
    = Raise
        (TypeError
           ("one or more pairs of stash and pop not matched:"
            +:+ newline +:+ newline
            +:+ "* '1' declared 't' as poppable but it was not stashed"
            +:+ newline
            +:+ "* any module did not declare 's' as poppable")).
Proof.
  split; [|reflexivity].
  apply (proj1 (verify_skippables_reports_all unmatched)).
  exists (NotPopped "s"). apply (not_popped _ None).
  - exists "0", (init StashS tt). split; [left|by vm_compute].
  - intros (before & ln & layer & after & Heq & (Hpops & _) & _).
    unfold unmatched in Heq.
    destruct before as [|? [|? [|? ?]]]; simplify_eq/=; by vm_compute in Hpops.
Defined.

End OnExamples.

(** ** The tracker across a call of [forward] *)

Section ForwardContract.

Context {Tensor Args : Type}.

#[local] Abbreviation Skippable := (Skippable Tensor Args).
#[local] Abbreviation TensorOrTensors := (TensorOrTensors Tensor).
#[local] Abbreviation StashPopGenerator := (StashPopGenerator Tensor).
#[local] Abbreviation MapTracker := (gmap SkipKey (option Tensor)).

Lemma elem_of_namespaced (self : Skippable) (names : list string)
    (key : SkipKey) :
  key ∈ namespaced self <$> names ↔
  snd key ∈ names ∧ namespaced self (snd key) = key.
Proof.
  rewrite list_elem_of_fmap. split.
  - intros (n & -> & Hn). done.
  - intros [Hn Hkey]. by exists (snd key).
Qed.

Lemma elem_of_stashable (self : Skippable) (key : SkipKey) :
  key ∈ stashable self ↔
  snd key ∈ stashable_names (class_of self)
  ∧ namespaced self (snd key) = key.
Proof. unfold stashable. by rewrite elem_of_namespaced, elem_of_elements. Qed.

Lemma elem_of_poppable (self : Skippable) (key : SkipKey) :
  key ∈ poppable self ↔
  snd key ∈ poppable_names (class_of self)
  ∧ namespaced self (snd key) = key.
Proof. unfold poppable. by rewrite elem_of_namespaced, elem_of_elements. Qed.

(** Whatever its outcome, the loading loop leaves the other slots alone. *)
Lemma load_poppable_frame (self : Skippable) (batch : Batch Tensor)
    (names : list string) (pt : gmap string (option Tensor))
    (tracker : MapTracker) (key : SkipKey) :
  key ∉ namespaced self <$> names →
  snd (load_poppable batch (namespaced self <$> names) pt tracker) !! key
  = tracker !! key.
Proof.
  revert pt tracker. induction names as [|n names IH]; intros pt tracker Hkey.
  - done.
  - rewrite fmap_cons in Hkey. apply not_elem_of_cons in Hkey as [Hne Hkey].
    rewrite fmap_cons, load_poppable_cons.
    destruct (tracker !! namespaced self n) as [tensor|]; [|done].
    rewrite IH by done. by rewrite lookup_delete_ne.
Qed.

(** If the loading loop returns, every key was in the tracker. *)
Lemma load_poppable_ok_present (self : Skippable) (batch : Batch Tensor)
    (names : list string) (pt pt' : gmap string (option Tensor))
    (tracker tracker' : MapTracker) :
  NoDup names →
  load_poppable batch (namespaced self <$> names) pt tracker
    = (Ok pt', tracker') →
  ∀ name, name ∈ names → is_Some (tracker !! namespaced self name).
Proof.
  intros Hnd Hload name Hname.
  destruct (tracker !! namespaced self name) as [tensor|] eqn:Hlookup; [done|].
  destruct (load_poppable_absent self batch names pt tracker Hnd)
    as (? & ? & _ & _ & Hraise); [by exists name|].
  by rewrite Hload in Hraise.
Qed.

Lemma save_stashed_cons (self : Skippable) (batch : Batch Tensor)
    (n : string) (keys : list SkipKey) (st : gmap string (option Tensor))
    (tracker : MapTracker) :
  save_stashed batch (namespaced self n :: keys) st tracker
  = match st !! n with
    | Some tensor =>
        save_stashed batch keys st (<[namespaced self n := tensor]> tracker)
    | None => (Raise (KeyError n), tracker)
    end.
Proof. simpl. by destruct (st !! n). Qed.

(** Whatever its outcome, the saving loop leaves the other slots alone. *)
Lemma save_stashed_frame (self : Skippable) (batch : Batch Tensor)
    (names : list string) (st : gmap string (option Tensor))
    (tracker : MapTracker) (key : SkipKey) :
  key ∉ namespaced self <$> names →
  snd (save_stashed batch (namespaced self <$> names) st tracker) !! key
  = tracker !! key.
Proof.
  revert tracker. induction names as [|n names IH]; intros tracker Hkey.
  - done.
  - rewrite fmap_cons in Hkey. apply not_elem_of_cons in Hkey as [Hne Hkey].
    rewrite fmap_cons, save_stashed_cons.
    destruct (st !! n) as [tensor|]; [|done].
    rewrite IH by done. by rewrite lookup_insert_ne.
Qed.

(** The saving loop, when every name has a stashed tensor. *)
Lemma save_stashed_present (self : Skippable) (batch : Batch Tensor)
    (names : list string) (st : gmap string (option Tensor))
    (tracker : MapTracker) :
  NoDup names →
  (∀ name, name ∈ names → is_Some (st !! name)) →
  ∃ tracker',
    save_stashed batch (namespaced self <$> names) st tracker
      = (Ok tt, tracker')
    ∧ ∀ key, tracker' !! key
             = if decide (key ∈ namespaced self <$> names)
               then st !! snd key else tracker !! key.
Proof.
  revert tracker. induction names as [|n names IH]; intros tracker Hnd Hall.
  - exists tracker. split; [done|]. intros key.
    by rewrite decide_False by apply not_elem_of_nil.
  - apply NoDup_cons in Hnd as [Hn Hnd].
    destruct (Hall n) as [tensor Htensor]; [by left|].
    destruct (IH (<[namespaced self n := tensor]> tracker) Hnd)
      as (tracker' & Hsave & Htr).
    { intros name Hname. apply Hall. by right. }
    exists tracker'. split.
    + by rewrite fmap_cons, save_stashed_cons, Htensor.
    + intros key. rewrite Htr, fmap_cons.
      destruct (decide (key ∈ namespaced self <$> names)) as [Hin|Hin].
      * by rewrite decide_True by (by right).
      * destruct (decide (namespaced self n = key)) as [<-|Hne].
        -- rewrite lookup_insert_eq. by rewrite decide_True by left.
        -- rewrite lookup_insert_ne by done.
           rewrite decide_False; [done|].
           by intros [->|?]%elem_of_cons.
Qed.

Lemma check_declared_ok (self : Skippable) (l : Locals) :
  check_declared self l = Ok tt →
  stashable_names (class_of self) ⊆ dom (stashed_tensors l)
  ∧ poppable_tensors l = ∅.
Proof.
  unfold check_declared. intros Hcheck.
  destruct (decide (stashable_names (class_of self)
                      ∖ dom (stashed_tensors l) ≠ ∅)) as [|Hs]; [done|].
  destruct (decide (dom (poppable_tensors l) ≠ ∅)) as [|Hp]; [done|].
  apply dec_stable in Hs. apply dec_stable in Hp. split.
  - intros n Hn. destruct (decide (n ∈ dom (stashed_tensors l))); [done|].
    assert (n ∈ stashable_names (class_of self) ∖ dom (stashed_tensors l))
      as Hin by (by apply elem_of_difference).
    rewrite Hs in Hin. by apply not_elem_of_empty in Hin.
  - by apply dom_empty_inv_L.
Qed.

(** The steps behind a call of [forward] that returns. *)
Lemma forward_ok_inv {T : Type} `{!SkipTracker Tensor T} (self : Skippable)
    (input output : TensorOrTensors) (tracker tracker' : T) :
  forward self input tracker = (Ok output, tracker') →
  ∃ pt tracker1 l,
    load_poppable {| tensor_or_tensors := input |} (poppable self) ∅ tracker
      = (Ok pt, tracker1)
    ∧ dispatch self input (handle_stash self) (handle_pop self)
        {| stashed_tensors := ∅; poppable_tensors := pt |} = (Ok output, l)
    ∧ check_declared self l = Ok tt
    ∧ save_stashed {| tensor_or_tensors := output |} (stashable self)
        (stashed_tensors l) tracker1 = (Ok tt, tracker').
Proof.
  unfold forward, bind. intros Hfwd.
  destruct (load_poppable _ (poppable self) ∅ tracker)
    as [[pt|e] tracker1] eqn:Hload; [|done].
  simpl in Hfwd.
  destruct (dispatch self input (handle_stash self) (handle_pop self) _)
    as [[out|e] l] eqn:Hdisp; [|done].
  destruct (check_declared self l) as [[]|e] eqn:Hcheck; [|done].
  destruct (save_stashed _ (stashable self) (stashed_tensors l) tracker1)
    as [[[]|e] tracker2] eqn:Hsave; [|done].
  unfold ret in Hfwd. simplify_eq. by exists pt, tracker1, l.
Qed.

(** The tracker after a call of [forward] that returns. *)
Lemma forward_ok_tracker (self : Skippable) (input output : TensorOrTensors)
    (tracker tracker' : MapTracker) :
  forward self input tracker = (Ok output, tracker') →
  (∀ key, key ∈ poppable self → is_Some (tracker !! key))
  ∧ (∀ key, key ∈ stashable self → is_Some (tracker' !! key))
  ∧ (∀ key, key ∉ stashable self →
            tracker' !! key
            = if decide (key ∈ poppable self) then None else tracker !! key).
Proof.
  intros (pt & tracker1 & l & Hload & _ & Hcheck & Hsave)%forward_ok_inv.
  apply check_declared_ok in Hcheck as [Hstashed _].
  unfold poppable, stashable in *.
  pose proof (load_poppable_ok_present _ _ _ _ _ _ _
                (NoDup_elements _) Hload) as Hpresent.
  destruct (load_poppable_present self {| tensor_or_tensors := input |}
              (elements (poppable_names (class_of self))) ∅ tracker
              (NoDup_elements _) Hpresent)
    as (pt' & tracker1' & Hload' & _ & Htr1).
  rewrite Hload in Hload'. simplify_eq.
  destruct (save_stashed_present self {| tensor_or_tensors := output |}
              (elements (stashable_names (class_of self)))
              (stashed_tensors l) tracker1' (NoDup_elements _))
    as (tracker2 & Hsave' & Htr2).
  { intros name Hname%elem_of_elements. by apply elem_of_dom, Hstashed. }
  rewrite Hsave in Hsave'. simplify_eq. split_and!.
  - intros key (n & -> & Hn)%list_elem_of_fmap. by apply Hpresent.
  - intros key Hkey. rewrite Htr2, decide_True by done.
    apply elem_of_namespaced in Hkey as [Hn%elem_of_elements _].
    by apply elem_of_dom, Hstashed.
  - intros key Hkey. rewrite Htr2, decide_False by done. rewrite Htr1.
    destruct (decide (key ∈ namespaced self
                        <$> elements (poppable_names (class_of self))))
      as [Hp|Hp].
    + apply elem_of_namespaced in Hp. by rewrite decide_True.
    + rewrite elem_of_namespaced in Hp. by rewrite decide_False.
Qed.

(** X1: A call of [forward], whatever its outcome, leaves every slot of the
    tracker that is not a key of the stage as it was. *)
Theorem forward_leaves_other_slots (self : Skippable)
    (input : TensorOrTensors) (tracker : MapTracker) (key : SkipKey) :
  key ∉ poppable self →
  key ∉ stashable self →
  snd (forward self input tracker) !! key = tracker !! key.
Proof.
  intros Hp Hs. unfold forward, bind.
  pose proof (load_poppable_frame self {| tensor_or_tensors := input |}
                (elements (poppable_names (class_of self))) ∅ tracker key Hp)
    as Hload.
  fold (poppable self) in Hload.
  destruct (load_poppable _ (poppable self) ∅ tracker)
    as [[pt|e] tracker1]; [|done].
  simpl in Hload. simpl.
  destruct (dispatch self input (handle_stash self) (handle_pop self) _)
    as [[output|e] l]; [|done].
  destruct (check_declared self l) as [[]|e]; [|done].
  pose proof (save_stashed_frame self {| tensor_or_tensors := output |}
                (elements (stashable_names (class_of self)))
                (stashed_tensors l) tracker1 key Hs) as Hsave.
  fold (stashable self) in Hsave.
  destruct (save_stashed _ (stashable self) (stashed_tensors l) tracker1)
    as [[[]|e] tracker2]; simpl in *; congruence.
Qed.

(** X2: A call of [forward] that returns found every poppable key in the
    tracker, and leaves a tracker whose keys are those it had, without the
    poppable keys, with the stashable keys. *)
Theorem forward_consumes_and_fills (self : Skippable)
    (input output : TensorOrTensors) (tracker tracker' : MapTracker) :
  forward self input tracker = (Ok output, tracker') →
  (∀ key, key ∈ poppable self → key ∈ dom tracker)
  ∧ dom tracker'
    = (dom tracker ∖ list_to_set (poppable self))
      ∪ list_to_set (stashable self).
Proof.
  intros (Hpresent & Hfilled & Hrest)%forward_ok_tracker. split.
  - intros key Hkey. by apply elem_of_dom, Hpresent.
  - apply set_eq. intros key.
    rewrite elem_of_union, elem_of_difference, !elem_of_list_to_set.
    rewrite !elem_of_dom.
    destruct (decide (key ∈ stashable self)) as [Hs|Hs].
    + split; [by right|]. intros _. by apply Hfilled.
    + rewrite (Hrest key Hs).
      destruct (decide (key ∈ poppable self)) as [Hp|Hp].
      * split; [by intros [? ?]|]. by intros [[_ ?]|?].
      * split; [by left|]. by intros [[? _]|?].
Qed.

End ForwardContract.

(** ** More on the commands of a computation *)

Section CommandProperties.

Context {Tensor Args : Type}.

#[local] Abbreviation Skippable := (Skippable Tensor Args).
#[local] Abbreviation TensorOrTensors := (TensorOrTensors Tensor).
#[local] Abbreviation StashPopGenerator := (StashPopGenerator Tensor).
#[local] Abbreviation MapTracker := (gmap SkipKey (option Tensor)).

Lemma handle_pop_removes (self : Skippable) (name : string) (l l' : Locals)
    (tensor : option Tensor) :
  handle_pop self name l = (Ok tensor, l') →
  name ∈ poppable_names (class_of self)
  ∧ poppable_tensors l !! name = Some tensor
  ∧ poppable_tensors l' = delete name (poppable_tensors l)
  ∧ stashed_tensors l' = stashed_tensors l.
Proof.
  unfold handle_pop. case_decide; [|done].
  destruct (poppable_tensors l !! name) as [t|]; [|done].
  by intros [= <- <-].
Qed.

Lemma handle_stash_records (self : Skippable) (name : string)
    (tensor : option Tensor) (l l' : Locals) :
  handle_stash self name tensor l = (Ok tt, l') →
  stashed_tensors l' = <[name := tensor]> (stashed_tensors l)
  ∧ poppable_tensors l' = poppable_tensors l.
Proof. unfold handle_stash. case_decide; [|done]. by intros [= <-]. Qed.

(** A loaded tensor that is gone stays gone for the rest of the call. *)
Lemma reaches_popped_stays (self : Skippable) (g g' : StashPopGenerator)
    (l l' : Locals) (name : string) :
  reaches (handle_stash self) (handle_pop self) g l g' l' →
  poppable_tensors l !! name = None →
  poppable_tensors l' !! name = None.
Proof.
  induction 1 as [|n tensor resume l l1 g' l' Hs _ IH
                  |n resume l tensor l1 g' l' Hp _ IH]; intros Hgone.
  - done.
  - apply IH. apply handle_stash_records in Hs as [_ ->]. done.
  - apply IH. apply handle_pop_removes in Hp as (_ & _ & -> & _).
    destruct (decide (n = name)) as [->|Hne].
    + apply lookup_delete_eq.
    + by rewrite lookup_delete_ne.
Qed.

Section AnyTracker.

Context {T : Type} `{!SkipTracker Tensor T}.

(** X5: A computation that pops a declared name, and later pops the same
    name again, makes the call raise [KeyError] at the second [pop]: each
    loaded tensor can be popped once. *)
Theorem second_pop_raises_key_error (self : Skippable)
    (input : TensorOrTensors) (tracker tracker1 : T)
    (pt : gmap string (option Tensor)) (g : StashPopGenerator) (name : string)
    (resume1 resume2 : option Tensor → StashPopGenerator)
    (l1 l1' l2 : Locals) (tensor : option Tensor) :
  load_poppable {| tensor_or_tensors := input |} (poppable self) ∅ tracker
    = (Ok pt, tracker1) →
  module self input = Generated g →
  reaches (handle_stash self) (handle_pop self) g
    {| stashed_tensors := ∅; poppable_tensors := pt |}
    (Yield (pop name) resume1) l1 →
  handle_pop self name l1 = (Ok tensor, l1') →
  reaches (handle_stash self) (handle_pop self) (resume1 tensor) l1'
    (Yield (pop name) resume2) l2 →
  forward self input tracker = (Raise (KeyError name), tracker1).
Proof.
  intros Hload Hmod Hreach1 Hpop Hreach2.
  apply (forward_dispatch_raises _ _ _ _ pt _ l2); [done|].
  unfold dispatch. rewrite Hmod.
  rewrite (reaches_dispatch_loop _ _ _ _ _ _ Hreach1). simpl.
  unfold bind. rewrite Hpop.
  rewrite (reaches_dispatch_loop _ _ _ _ _ _ Hreach2). simpl.
  unfold bind, handle_pop.
  apply handle_pop_removes in Hpop as (Hdecl & _ & Hdel & _).
  assert (poppable_tensors l2 !! name = None) as Hgone.
  { apply (reaches_popped_stays _ _ _ _ _ _ Hreach2).
    rewrite Hdel. apply lookup_delete_eq. }
  by rewrite Hgone, decide_True.
Qed.

(** X6: A computation that yields anything but a [stash] or a [pop] makes
    the call raise [TypeError], and the tracker is left as the loads left
    it.  The message is what ['%r is not a command from @skippable' % op]
    gives: the [repr] of what was yielded followed by that text when it is
    not a tuple; the [repr] of its item followed by that text when it is a
    tuple of one item; and the complaint of the format itself when it is
    the empty tuple or a tuple of two items or more. *)
Theorem other_yield_raises_type_error (self : Skippable)
    (input : TensorOrTensors) (tracker tracker1 : T)
    (pt : gmap string (option Tensor)) (g : StashPopGenerator) (op : Object)
    (resume : option Tensor → StashPopGenerator) (l : Locals) :
  load_poppable {| tensor_or_tensors := input |} (poppable self) ∅ tracker
    = (Ok pt, tracker1) →
  module self input = Generated g →
  reaches (handle_stash self) (handle_pop self) g
    {| stashed_tensors := ∅; poppable_tensors := pt |}
    (Yield (other op) resume) l →
  forward self input tracker
  = (Raise (TypeError
       match op with
       | NotTuple repr => repr +:+ " is not a command from @skippable"
       | Tuple [] => "not enough arguments for format string"
       | Tuple [repr] => repr +:+ " is not a command from @skippable"
       | Tuple (_ :: _ :: _) =>
           "not all arguments converted during string formatting"
       end),
     tracker1).
Proof.
  intros Hload Hmod Hreach.
  apply (forward_dispatch_raises _ _ _ _ pt _ l); [done|].
  unfold dispatch. rewrite Hmod.
  rewrite (reaches_dispatch_loop _ _ _ _ _ _ Hreach). simpl.
  by destruct op as [repr|[|repr [|repr' items]]].
Qed.

End AnyTracker.

End CommandProperties.

(** ** Stages that do not yield, and stages that stash and pop once *)

Section StageProperties.

Context {Tensor Args : Type}.

#[local] Abbreviation Skippable := (Skippable Tensor Args).
#[local] Abbreviation TensorOrTensors := (TensorOrTensors Tensor).
#[local] Abbreviation StashPopGenerator := (StashPopGenerator Tensor).
#[local] Abbreviation MapTracker := (gmap SkipKey (option Tensor)).

Lemma load_poppable_dom {T : Type} `{!SkipTracker Tensor T}
    (batch : Batch Tensor) (keys : list SkipKey)
    (pt pt' : gmap string (option Tensor)) (tracker tracker' : T) :
  load_poppable batch keys pt tracker = (Ok pt', tracker') →
  dom pt' = dom pt ∪ list_to_set (snd <$> keys).
Proof.
  revert pt tracker. induction keys as [|[ns name] keys IH];
    intros pt tracker Hload.
  - simpl in Hload. unfold ret in Hload. simplify_eq.
    simpl. by rewrite union_empty_r_L.
  - simpl in Hload.
    destruct (load batch ns name tracker) as [[tensor|e] tracker1].
    + apply IH in Hload. rewrite Hload, dom_insert_L. simpl.
      apply set_eq. intros n. rewrite !elem_of_union. naive_solver.
    + by destruct e.
Qed.

Lemma load_no_poppable {T : Type} `{!SkipTracker Tensor T} (self : Skippable)
    (batch : Batch Tensor) (tracker : T) :
  poppable_names (class_of self) = ∅ →
  load_poppable batch (poppable self) ∅ tracker = (Ok ∅, tracker).
Proof. intros HP. unfold poppable. by rewrite HP, elements_empty. Qed.

Lemma dispatch_without_yield {St : Type} (self : Skippable)
    (input output : TensorOrTensors)
    (hs : string → option Tensor → M St unit)
    (hp : string → M St (option Tensor)) (st : St) :
  module self input = Output output
  ∨ module self input = Generated (Return output) →
  dispatch self input hs hp st = (Ok output, st).
Proof. intros Hmod. unfold dispatch. by destruct Hmod as [-> | ->]. Qed.

(** X7: When the wrapped module returns without a [yield], the call of
    [forward] returns only for a stage that declares no name at all: every
    declared name has to be stashed, or popped, in every call. *)
Theorem forward_without_yield_returns_iff {T : Type} `{!SkipTracker Tensor T}
    (self : Skippable) (input output : TensorOrTensors) (tracker : T) :
  module self input = Output output
  ∨ module self input = Generated (Return output) →
  (∃ output' tracker',
     forward self input tracker = (Ok output', tracker'))
  ↔ stashable_names (class_of self) = ∅
    ∧ poppable_names (class_of self) = ∅.
Proof.
  intros Hmod. split.
  - intros (output' & tracker' & Hfwd).
    apply forward_ok_inv in Hfwd
      as (pt & tracker1 & l & Hload & Hdisp & Hcheck & _).
    rewrite (dispatch_without_yield _ _ output) in Hdisp by done.
    simplify_eq. apply check_declared_ok in Hcheck as [HS Hpt].
    simpl in HS, Hpt. subst pt. split.
    + apply set_eq. intros n. rewrite dom_empty_L in HS. set_solver.
    + apply load_poppable_dom in Hload. unfold poppable in Hload.
      rewrite <-list_fmap_compose, dom_empty_L, union_empty_l_L in Hload.
      apply set_eq. intros n. split; [|by intros ?%not_elem_of_empty].
      intros Hn. rewrite Hload, elem_of_list_to_set, list_elem_of_fmap.
      exists n. by rewrite elem_of_elements.
  - intros [HS HP]. exists output, tracker.
    rewrite (forward_dispatch_returns self input tracker tracker ∅ output
               {| stashed_tensors := ∅; poppable_tensors := ∅ |}).
    + rewrite check_declared_passes.
      * unfold stashable. by rewrite HS, elements_empty.
      * simpl. rewrite HS. apply difference_diag_L || set_solver.
      * simpl. apply dom_empty_L.
    + by apply load_no_poppable.
    + by apply dispatch_without_yield.
Qed.

(** X4: A stage that stashes the same name twice saves the second tensor. *)
Theorem last_stash_is_saved (self : Skippable)
    (input output : TensorOrTensors) (x : string) (t1 t2 : option Tensor)
    (tracker : MapTracker) :
  stashable_names (class_of self) = {[x]} →
  poppable_names (class_of self) = ∅ →
  module self input
  = Generated
      (Yield (stash x t1) (λ _, Yield (stash x t2) (λ _, Return output))) →
  forward self input tracker
  = (Ok output, <[namespaced self x := t2]> tracker).
Proof.
  intros HS HP Hmod.
  rewrite (forward_dispatch_returns self input tracker tracker ∅ output
             {| stashed_tensors := <[x := t2]> (<[x := t1]> ∅);
                poppable_tensors := ∅ |}).
  - rewrite check_declared_passes.
    + unfold stashable, bind. rewrite HS, elements_singleton, fmap_cons.
      rewrite save_stashed_cons. simpl. by rewrite lookup_insert_eq.
    + simpl. rewrite HS, !dom_insert_L. set_solver.
    + simpl. apply dom_empty_L.
  - by apply load_no_poppable.
  - unfold dispatch. rewrite Hmod. simpl. unfold bind, handle_stash.
    simpl. rewrite HS. by rewrite !decide_True by set_solver.
Qed.

(** X3: A tensor (or [None]) stashed under a key by one stage is what the
    computation of a later stage gets for its [pop] of the same key, and the
    slot is gone from the tracker afterwards. *)
Theorem stash_then_pop_round_trip (a b : Skippable)
    (input_a output_a input_b : TensorOrTensors) (x : string)
    (t : option Tensor) (f : option Tensor → TensorOrTensors)
    (tracker : MapTracker) :
  stashable_names (class_of a) = {[x]} →
  poppable_names (class_of a) = ∅ →
  stashable_names (class_of b) = ∅ →
  poppable_names (class_of b) = {[x]} →
  namespaced a x = namespaced b x →
  module a input_a
  = Generated (Yield (stash x t) (λ _, Return output_a)) →
  module b input_b = Generated (Yield (pop x) (λ tensor, Return (f tensor))) →
  forward a input_a tracker
  = (Ok output_a, <[namespaced a x := t]> tracker)
  ∧ forward b input_b (<[namespaced a x := t]> tracker)
    = (Ok (f t), delete (namespaced a x) tracker).
Proof.
  intros HSa HPa HSb HPb Hkey Hmod_a Hmod_b. split.
  - rewrite (forward_dispatch_returns a input_a tracker tracker ∅ output_a
               {| stashed_tensors := <[x := t]> ∅; poppable_tensors := ∅ |}).
    + rewrite check_declared_passes.
      * unfold stashable, bind. rewrite HSa, elements_singleton, fmap_cons.
        rewrite save_stashed_cons. simpl. by rewrite lookup_insert_eq.
      * simpl. rewrite HSa, !dom_insert_L. set_solver.
      * simpl. apply dom_empty_L.
    + by apply load_no_poppable.
    + unfold dispatch. rewrite Hmod_a. simpl. unfold bind, handle_stash.
      simpl. rewrite HSa. by rewrite decide_True by set_solver.
  - rewrite (forward_dispatch_returns b input_b
               (<[namespaced a x := t]> tracker)
               (delete (namespaced a x) tracker) (<[x := t]> ∅) (f t)
               {| stashed_tensors := ∅; poppable_tensors := ∅ |}).
    + rewrite check_declared_passes.
      * unfold stashable. by rewrite HSb, elements_empty.
      * simpl. rewrite HSb. set_solver.
      * simpl. apply dom_empty_L.
    + unfold poppable. rewrite HPb, elements_singleton, fmap_cons.
      rewrite load_poppable_cons, <-Hkey, lookup_insert_eq. simpl.
      by rewrite delete_insert_eq.
    + unfold dispatch. rewrite Hmod_b. simpl. unfold bind, handle_pop.
      simpl. rewrite HPb. rewrite decide_True by set_solver.
      rewrite lookup_insert_eq. simpl. by rewrite delete_insert_eq, delete_empty.
Qed.

End StageProperties.

(** ** More on the verifier *)

Section VerifyProperties.

Context {Tensor Args : Type}.

#[local] Abbreviation Skippable := (Skippable Tensor Args).
#[local] Abbreviation Sequential := (Sequential Tensor Args).

(** X11: Layers without declarations can be put in or taken out anywhere:
    the outcome of [verify_skippables] is the same. *)
Theorem verify_ignores_undeclaring (before ignored after : Sequential) :
  Forall undeclaring ignored →
  verify_skippables (before ++ ignored ++ after)
  = verify_skippables (before ++ after).
Proof.
  intros Hignored. unfold verify_skippables, findings, scan_layers.
  rewrite !foldl_app. by rewrite (scan_layers_undeclaring _ ignored).
Qed.

Lemma verify_ok_no_violation (module : Sequential) (v : Violation) :
  verify_skippables module = Ok tt → ¬ violation module v.
Proof.
  unfold verify_skippables. intros Hok Hv.
  assert (describe v ∈ findings module) as Hin.
  { apply findings_violations. by exists v. }
  destruct (findings module); [by apply elem_of_nil in Hin|done].
Qed.

(** X10: What [verify_skippables] guarantees when it returns: every stashed
    key is popped by a layer that comes after a layer stashing it; no layer
    declares a name on both sides; no layer stashes a key that an earlier
    layer stashes; every layer that pops a key comes after a layer that
    stashes it and after no layer that already popped it. *)
Theorem verify_accepts_only_matched (module : Sequential) :
  verify_skippables module = Ok tt →
  (∀ key, stashed_in module key → popped_in module key)
  ∧ ∀ before layer_name layer after,
      module = before ++ (layer_name, Skip layer) :: after →
      stashable_names (class_of layer) ∩ poppable_names (class_of layer) = ∅
      ∧ (∀ key, stashes layer key → ¬ stashed_in before key)
      ∧ (∀ key, pops layer key →
                stashed_in before key ∧ ¬ popped_in before key).
Proof.
  intros Hok. split.
  - intros [ns name] Hst.
    destruct (scan_layers_scanned module) as (_ & Hpop & _).
    destruct (decide ((ns, name) ∈ popped (scan_layers module)))
      as [Hin|Hin]; [by apply Hpop|].
    destruct (verify_ok_no_violation module (NotPopped name) Hok).
    apply (not_popped _ ns); [done|]. by rewrite <-Hpop.
  - intros before layer_name layer after Hmodule. split_and!.
    + apply set_eq. intros n. split; [|by intros ?%not_elem_of_empty].
      intros [HS HP]%elem_of_intersection.
      destruct (verify_ok_no_violation module (DeclaredBoth layer_name n) Hok).
      apply at_layers. exists before, layer_name, layer, after.
      split; [done|]. by constructor.
    + intros key Hstashes Hbefore.
      destruct (verify_ok_no_violation module
                  (Restashed layer_name (snd key)) Hok).
      apply at_layers. exists before, layer_name, layer, after.
      split; [done|]. destruct Hstashes as (? & ? & Hkey).
      constructor; by rewrite Hkey.
    + intros key Hpops.
      pose proof Hpops as (? & ? & Hkey).
      destruct (scan_layers_scanned before) as (Hst & _ & _). split.
      * destruct (decide (key ∈ stashed (scan_layers before)))
          as [Hin|Hin]; [by apply Hst|].
        destruct (verify_ok_no_violation module
                    (NotStashed layer_name (snd key)) Hok).
        apply at_layers. exists before, layer_name, layer, after.
        split; [done|]. constructor; rewrite Hkey; [done|].
        by rewrite <-Hst.
      * intros Hpopped.
        destruct (verify_ok_no_violation module
                    (Repopped layer_name (snd key)) Hok).
        apply at_layers. exists before, layer_name, layer, after.
        split; [done|]. constructor; by rewrite Hkey.
Qed.

(** X13: Two layers that stash the same name, neither of them isolated for
    it, never pass: wherever they are in the sequence and whatever the other
    layers, [verify_skippables] raises and its message says that the second
    redeclared the name. *)
Theorem verify_rejects_unisolated_twins (before between after : Sequential)
    (name1 name2 x : string) (a1 a2 : Skippable) :
  never_isolated x a1 →
  never_isolated x a2 →
  x ∈ stashable_names (class_of a1) →
  x ∉ poppable_names (class_of a1) →
  x ∈ stashable_names (class_of a2) →
  x ∉ poppable_names (class_of a2) →
  ∃ msg,
    verify_skippables
      (before ++ (name1, Skip a1) :: between ++ (name2, Skip a2) :: after)
    = Raise (TypeError msg)
    ∧ mentions (msg_restashed name2 x) msg.
Proof.
  intros Hn1%never_isolated_unbound Hn2%never_isolated_unbound HS1 HP1 HS2 HP2.
  set (module := before ++ _).
  assert (msg_restashed name2 x ∈ findings module) as Hin.
  { apply findings_violations. exists (Restashed name2 x). split; [|done].
    apply at_layers.
    exists (before ++ (name1, Skip a1) :: between), name2, a2, after. split.
    - unfold module. by rewrite <-app_assoc.
    - constructor; [done|]. exists name1, a1. split.
      + apply elem_of_app. right. left.
      + unfold namespaced. rewrite Hn2, <-Hn1. done. }
  unfold verify_skippables.
  destruct (findings module) as [|m ms] eqn:Hfind;
    [by apply elem_of_nil in Hin|].
  exists (verify_message (m :: ms)). split; [done|].
  by apply mentions_verify_message.
Qed.

Lemma scan_layer_pop_unstashed (s : Scan) (layer_name x : string)
    (layer : Skippable) :
  stashable_names (class_of layer) = ∅ →
  poppable_names (class_of layer) = {[x]} →
  namespaced layer x ∉ popped s →
  namespaced layer x ∉ stashed s →
  scan_layer s (layer_name, Skip layer)
  = append (msg_not_stashed layer_name x) s.
Proof.
  intros HS HP Hfresh Hunstashed.
  unfold scan_layer, scan_poppable, scan_stashable, scan_both.
  unfold stashable, poppable. rewrite HS, HP.
  rewrite intersection_empty_l_L.
  rewrite elements_empty, elements_singleton.
  cbn [foldl fmap list_fmap]. unfold scan_poppable_step.
  unfold namespaced in *. rewrite HS.
  rewrite decide_False by set_solver. rewrite decide_False by done.
  by rewrite decide_True.
Qed.

(** X12: The order of the layers matters: when the layer that pops [x] comes
    before the layer that stashes [x], and no other layer declares anything,
    [verify_skippables] raises with the two findings: the name was popped
    without a stash, and the stash was never popped. *)
Theorem verify_rejects_pop_before_stash (before between after : Sequential)
    (name_a name_b x : string) (a b : Skippable) :
  Forall undeclaring before →
  Forall undeclaring between →
  Forall undeclaring after →
  stashable_names (class_of a) = {[x]} →
  poppable_names (class_of a) = ∅ →
  stashable_names (class_of b) = ∅ →
  poppable_names (class_of b) = {[x]} →
  verify_skippables
    (before ++ (name_b, Skip b) :: between ++ (name_a, Skip a) :: after)
  = Raise (TypeError
             (verify_message [msg_not_stashed name_b x; msg_not_popped x])).
Proof.
  intros Hbefore Hbetween Hafter HSa HPa HSb HPb.
  unfold verify_skippables, findings, scan_layers.
  rewrite foldl_app, (scan_layers_undeclaring _ before) by done.
  cbn [foldl].
  rewrite (scan_layer_pop_unstashed _ _ x)
    by (done || apply not_elem_of_empty).
  rewrite foldl_app, (scan_layers_undeclaring _ between) by done.
  cbn [foldl].
  rewrite (scan_layer_stash_only _ _ x) by (done || apply not_elem_of_empty).
  rewrite (scan_layers_undeclaring _ after) by done.
  unfold scan_unpopped. cbn [stashed popped msgs append].
  assert (∀ k : SkipKey, ({[k]} ∪ ∅) ∖ ∅ = ({[k]} : gset SkipKey)) as ->
    by (intros k; set_solver).
  by rewrite elements_singleton.
Qed.

(** X14: The usage shown with [isolate]: two layers stash the same name in
    two different namespaces, and two later layers pop it, each in the
    namespace of one of the stashes; no other layer declares anything.
    [verify_skippables] returns. *)
Theorem verify_accepts_isolated_pairs
    (before between1 between2 between3 after : Sequential)
    (name1 name2 name3 name4 x : string) (stash1 stash2 pop2 pop1 : Skippable) :
  Forall undeclaring before →
  Forall undeclaring between1 →
  Forall undeclaring between2 →
  Forall undeclaring between3 →
  Forall undeclaring after →
  stashable_names (class_of stash1) = {[x]} →
  poppable_names (class_of stash1) = ∅ →
  stashable_names (class_of stash2) = {[x]} →
  poppable_names (class_of stash2) = ∅ →
  stashable_names (class_of pop1) = ∅ →
  poppable_names (class_of pop1) = {[x]} →
  stashable_names (class_of pop2) = ∅ →
  poppable_names (class_of pop2) = {[x]} →
  namespaces stash1 !! x ≠ namespaces stash2 !! x →
  namespaces pop1 !! x = namespaces stash1 !! x →
  namespaces pop2 !! x = namespaces stash2 !! x →
  verify_skippables
    (before ++ (name1, Skip stash1) :: between1
       ++ (name2, Skip stash2) :: between2
       ++ (name3, Skip pop2) :: between3
       ++ (name4, Skip pop1) :: after)
  = Ok tt.
Proof.
  intros Hbefore Hb1 Hb2 Hb3 Hafter HS1 HP1 HS2 HP2 HS3 HP3 HS4 HP4
    Hne Hns1 Hns2.
  assert (namespaced pop1 x = namespaced stash1 x) as Hk1.
  { unfold namespaced. by rewrite Hns1. }
  assert (namespaced pop2 x = namespaced stash2 x) as Hk2.
  { unfold namespaced. by rewrite Hns2. }
  assert (namespaced stash1 x ≠ namespaced stash2 x) as Hk.
  { unfold namespaced. by intros [= ?]. }
  unfold verify_skippables, findings, scan_layers.
  rewrite foldl_app, (scan_layers_undeclaring _ before) by done.
  cbn [foldl].
  rewrite (scan_layer_stash_only _ _ x) by (done || apply not_elem_of_empty).
  rewrite foldl_app, (scan_layers_undeclaring _ between1) by done.
  cbn [foldl].
  rewrite (scan_layer_stash_only _ _ x); [|done|done|].
  2:{ cbn [stashed]. rewrite elem_of_union, elem_of_singleton.
      by intros [?|?%not_elem_of_empty]. }
  rewrite foldl_app, (scan_layers_undeclaring _ between2) by done.
  cbn [foldl].
  rewrite (scan_layer_pop_only _ _ x); [|done|done|apply not_elem_of_empty|].
  2:{ cbn [stashed]. rewrite Hk2. by apply elem_of_union_l, elem_of_singleton. }
  rewrite foldl_app, (scan_layers_undeclaring _ between3) by done.
  cbn [foldl].
  rewrite (scan_layer_pop_only _ _ x); [|done|done| |].
  2:{ cbn [popped]. rewrite Hk1, Hk2, elem_of_union, elem_of_singleton.
      by intros [?|?%not_elem_of_empty]. }
  2:{ cbn [stashed]. rewrite Hk1.
      by apply elem_of_union_r, elem_of_union_l, elem_of_singleton. }
  rewrite (scan_layers_undeclaring _ after) by done.
  unfold scan_unpopped. cbn [stashed popped msgs]. rewrite Hk1, Hk2.
  clear. generalize (namespaced stash1 x) (namespaced stash2 x).
  intros k1 k2.
  assert (({[k2]} ∪ ({[k1]} ∪ ∅)) ∖ ({[k1]} ∪ ({[k2]} ∪ ∅))
          = (∅ : gset SkipKey)) as -> by set_solver.
  by rewrite elements_empty.
Qed.

End VerifyProperties.

(** ** From the verifier to the run *)

Section VerifiedRun.

Context {Tensor Args : Type}.

#[local] Abbreviation Skippable := (Skippable Tensor Args).
#[local] Abbreviation TensorOrTensors := (TensorOrTensors Tensor).
#[local] Abbreviation StashPopGenerator := (StashPopGenerator Tensor).
#[local] Abbreviation MapTracker := (gmap SkipKey (option Tensor)).

(** Two strings whose last characters differ are different. *)
Ltac last_chars H :=
  apply (f_equal String.list_ascii_of_string) in H;
  unfold quote in H; rewrite !chars_app in H;
  apply (f_equal reverse) in H; rewrite !reverse_app in H; cbn in H;
  discriminate H.

Lemma undeclared_stashable_not_missing (name : string) :
  ¬ missing_skip
      (RuntimeError (quote name +:+ " has not been declared as stashable")).
Proof. intros [n [= H]]. last_chars H. Qed.

Lemma undeclared_poppable_not_missing (name : string) :
  ¬ missing_skip
      (RuntimeError (quote name +:+ " has not been declared as poppable")).
Proof. intros [n [= H]]. last_chars H. Qed.

Lemma must_be_stashed_not_missing (names : string) :
  ¬ missing_skip (RuntimeError (names +:+ " must be stashed but have not")).
Proof. intros [n [= H]]. last_chars H. Qed.

Lemma must_be_popped_not_missing (names : string) :
  ¬ missing_skip (RuntimeError (names +:+ " must be popped but have not")).
Proof. intros [n [= H]]. last_chars H. Qed.

(** The exceptions that come out of the loop of [dispatch] under the
    handlers of [forward]. *)
Lemma dispatch_loop_raises_not_missing (self : Skippable)
    (g : StashPopGenerator) (l l' : Locals) (e : Exn) :
  dispatch_loop (handle_stash self) (handle_pop self) g l = (Raise e, l') →
  ¬ missing_skip e.
Proof.
  revert l. induction g as [output|[name tensor|name|op] resume IH];
    intros l Hraise; simpl in Hraise.
  - done.
  - unfold bind in Hraise.
    destruct (handle_stash self name tensor l) as [[[]|e1] l1] eqn:Hs.
    + by apply (IH None l1).
    + unfold handle_stash in Hs. case_decide; [done|]. simplify_eq.
      apply undeclared_stashable_not_missing.
  - unfold bind in Hraise.
    destruct (handle_pop self name l) as [[tensor|e1] l1] eqn:Hp.
    + by apply (IH tensor l1).
    + unfold handle_pop in Hp. case_decide.
      * destruct (poppable_tensors l !! name); simplify_eq.
        by intros [n ?].
      * simplify_eq. apply undeclared_poppable_not_missing.
  - unfold raise in Hraise. simplify_eq.
    by destruct op as [repr|[|repr [|repr' items]]]; intros [n ?].
Qed.

Lemma check_declared_raises_not_missing (self : Skippable) (l : Locals)
    (e : Exn) :
  check_declared self l = Raise e → ¬ missing_skip e.
Proof.
  unfold check_declared. repeat case_decide; intros [= <-].
  - apply must_be_stashed_not_missing.
  - apply must_be_popped_not_missing.
Qed.

Lemma save_stashed_raises_not_missing {T : Type} `{!SkipTracker Tensor T}
    (batch : Batch Tensor) (keys : list SkipKey)
    (st : gmap string (option Tensor)) (tracker tracker' : T) (e : Exn) :
  (∀ ns name tensor t, ∀ e' t', save batch ns name tensor t = (Raise e', t') →
                                ¬ missing_skip e') →
  save_stashed batch keys st tracker = (Raise e, tracker') →
  ¬ missing_skip e.
Proof.
  intros Hsave. revert tracker.
  induction keys as [|[ns name] keys IH]; intros tracker Hraise.
  - done.
  - simpl in Hraise. destruct (st !! name) as [tensor|].
    + unfold bind in Hraise.
      destruct (save batch ns name tensor tracker) as [[[]|e1] t1] eqn:Hs.
      * by apply (IH t1).
      * simplify_eq. by apply (Hsave _ _ _ _ _ _ Hs).
    + unfold raise in Hraise. simplify_eq. by intros [n ?].
Qed.

Lemma save_stashed_map_not_missing (batch : Batch Tensor)
    (keys : list SkipKey) (st : gmap string (option Tensor))
    (tracker tracker' : MapTracker) (e : Exn) :
  save_stashed batch keys st tracker = (Raise e, tracker') →
  ¬ missing_skip e.
Proof.
  apply save_stashed_raises_not_missing.
  intros ns name tensor t e' t' Hsave. by simpl in Hsave.
Qed.

(** When every poppable key is in the tracker, a call of [forward] that
    raises does not raise for a missing skip. *)
Lemma forward_raises_not_missing (self : Skippable) (input : TensorOrTensors)
    (tracker tracker' : MapTracker) (e : Exn) :
  (∀ key, key ∈ poppable self → is_Some (tracker !! key)) →
  forward self input tracker = (Raise e, tracker') →
  ¬ missing_skip e.
Proof.
  intros Hpresent Hraise. unfold forward, bind in Hraise.
  destruct (load_poppable_present self {| tensor_or_tensors := input |}
              (elements (poppable_names (class_of self))) ∅ tracker
              (NoDup_elements _))
    as (pt & tracker1 & Hload & _ & _).
  { intros name Hname. apply Hpresent, list_elem_of_fmap. by exists name. }
  fold (poppable self) in Hload. rewrite Hload in Hraise. simpl in Hraise.
  unfold dispatch in Hraise.
  destruct (module self input) as [output|g].
  - unfold ret in Hraise.
    destruct (check_declared self _) as [[]|e1] eqn:Hcheck.
    + destruct (save_stashed _ (stashable self) _ tracker1)
        as [[[]|e2] tracker2] eqn:Hsave; [done|]. simplify_eq.
      by apply (save_stashed_map_not_missing _ _ _ _ _ _ Hsave).
    + unfold raise in Hraise. simplify_eq.
      by apply (check_declared_raises_not_missing _ _ _ Hcheck).
  - destruct (dispatch_loop (handle_stash self) (handle_pop self) g _)
      as [[output|e1] l] eqn:Hdisp.
    + destruct (check_declared self l) as [[]|e2] eqn:Hcheck.
      * destruct (save_stashed _ (stashable self) _ tracker1)
          as [[[]|e3] tracker2] eqn:Hsave; [done|]. simplify_eq.
        by apply (save_stashed_map_not_missing _ _ _ _ _ _ Hsave).
      * unfold raise in Hraise. simplify_eq.
        by apply (check_declared_raises_not_missing _ _ _ Hcheck).
    + unfold raise in Hraise. simplify_eq.
      by apply (dispatch_loop_raises_not_missing _ _ _ _ _ Hdisp).
Qed.

Lemma scan_layer_msgs_grow (s : Scan) (child : string * Layer Tensor Args) :
  ∃ new, msgs (scan_layer s child) = msgs s ++ new.
Proof.
  destruct child as [layer_name [layer|]].
  - destruct (scan_layer_spec layer_name layer s) as (_ & _ & new & ? & _).
    by exists new.
  - exists []. by rewrite app_nil_r.
Qed.

Lemma scan_layers_msgs_grow (s : Scan) (layers : Sequential Tensor Args) :
  ∃ new, msgs (foldl scan_layer s layers) = msgs s ++ new.
Proof.
  revert s. induction layers as [|child layers IH]; intros s.
  - exists []. by rewrite app_nil_r.
  - destruct (scan_layer_msgs_grow s child) as [new1 H1].
    destruct (IH (scan_layer s child)) as [new2 H2].
    exists (new1 ++ new2). simpl. by rewrite H2, H1, app_assoc.
Qed.

Lemma app_eq_self {A : Type} (l new : list A) : l ++ new = l → new = [].
Proof.
  intros H. apply (app_inv_head l). by rewrite app_nil_r.
Qed.

(** What a layer without findings tells of its keys, against the sets of
    the scan. *)
Lemma layer_without_findings (s : Scan) (layer_name : string)
    (layer : Skippable) :
  msgs (scan_layer s (layer_name, Skip layer)) = msgs s →
  (∀ n, n ∈ stashable_names (class_of layer) →
        n ∈ poppable_names (class_of layer) → False)
  ∧ (∀ key, stashes layer key → key ∉ stashed s)
  ∧ (∀ key, pops layer key → key ∈ stashed s ∧ key ∉ popped s).
Proof.
  intros Hsame.
  destruct (scan_layer_spec layer_name layer s) as (_ & _ & new & Hmsgs & Hnew).
  cbv zeta in *. rewrite Hmsgs in Hsame. apply app_eq_self in Hsame.
  subst new. setoid_rewrite elem_of_nil in Hnew. split_and!.
  - intros n HS HP. apply (Hnew (msg_both layer_name n)). left. by exists n.
  - intros key Hst Hin. pose proof Hst as (_ & _ & Hkey).
    apply (Hnew (msg_restashed layer_name (snd key))). right. left.
    exists (snd key). by rewrite Hkey.
  - intros key Hp. pose proof Hp as (_ & _ & Hkey).
    assert (key ∉ popped s) as Hnp.
    { intros Hin. apply (Hnew (msg_repopped layer_name (snd key))).
      right. right. left. exists (snd key). by rewrite Hkey. }
    split; [|done].
    destruct (decide (key ∈ stashed s)) as [|Hns]; [done|].
    destruct (Hnew (msg_not_stashed layer_name (snd key))) as [_ []].
    right. right. right. exists (snd key). by rewrite Hkey.
Qed.

(** A layer that passes the scan without a finding, on a tracker in sync
    with the scan: its loads find their keys, and a call that returns
    leaves the tracker in sync with the scan after the layer. *)
Lemma stage_keeps_sync (s : Scan) (layer_name : string)
    (layer : Skippable) (tracker : MapTracker) :
  in_sync s tracker →
  msgs (scan_layer s (layer_name, Skip layer)) = msgs s →
  (∀ key, key ∈ poppable layer → is_Some (tracker !! key))
  ∧ ∀ input output tracker',
      forward layer input tracker = (Ok output, tracker') →
      in_sync (scan_layer s (layer_name, Skip layer)) tracker'.
Proof.
  intros [Hdom Hsub] Hsame.
  destruct (layer_without_findings s layer_name layer Hsame)
    as (Hboth & Hfresh & Hmatched).
  destruct (scan_layer_spec layer_name layer s) as (Hst & Hpop & _).
  cbv zeta in *.
  assert (∀ key, key ∈ stashable layer → stashes layer key) as Hstashes.
  { intros key [HS Hkey]%elem_of_stashable. split_and!; [done| |done].
    intros HP. by apply (Hboth (snd key)). }
  assert (∀ key, key ∈ poppable layer → pops layer key) as Hpops.
  { intros key [HP Hkey]%elem_of_poppable. split_and!; [done| |done].
    intros HS. by apply (Hboth (snd key)). }
  assert (∀ key, stashes layer key → key ∈ stashable layer) as Hstashable.
  { intros key (? & _ & ?). by apply elem_of_stashable. }
  assert (∀ key, pops layer key → key ∈ poppable layer) as Hpoppable.
  { intros key (? & _ & ?). by apply elem_of_poppable. }
  split.
  - intros key Hkey%Hpops%Hmatched. apply elem_of_dom. rewrite Hdom.
    by apply elem_of_difference.
  - intros input output tracker' (_ & Hfilled & Hrest)%forward_ok_tracker.
    split.
    + apply set_eq. intros key.
      rewrite elem_of_dom, elem_of_difference, Hst, Hpop.
      destruct (decide (key ∈ stashable layer)) as [Hs|Hs].
      * split; [|intros _; by apply Hfilled]. intros _.
        pose proof (Hstashes key Hs) as Hstk. split; [by right|].
        intros [Hin|[(_ & HnS & _) _]].
        -- by apply (Hfresh key Hstk), Hsub.
        -- by destruct Hstk as (? & _).
      * rewrite (Hrest key Hs).
        destruct (decide (key ∈ poppable layer)) as [Hp|Hp].
        -- split; [by intros [? ?]|]. intros [_ Hnot]. destruct Hnot.
           right. split; [by apply Hpops|]. by apply Hmatched, Hpops.
        -- rewrite <-elem_of_dom, Hdom, elem_of_difference. split.
           ++ intros [Hin Hnp]. split; [by left|].
              intros [?|[?%Hpoppable _]]; done.
           ++ intros [[Hin|?%Hstashable] Hnp]; [|done].
              split; [done|]. intros ?. apply Hnp. by left.
    + intros key. rewrite Hst, Hpop.
      intros [Hin|[_ Hin]]; left; [by apply Hsub|done].
Qed.

Lemma verify_ok_findings (module : Sequential Tensor Args) :
  verify_skippables module = Ok tt → findings module = [].
Proof. unfold verify_skippables. by destruct (findings module). Qed.

Lemma findings_nil (module : Sequential Tensor Args) :
  findings module = [] →
  msgs (scan_layers module) = []
  ∧ stashed (scan_layers module) ∖ popped (scan_layers module) = ∅.
Proof.
  unfold findings, scan_unpopped. rewrite scan_unpopped_keys.
  intros [Hmsgs Hkeys]%app_eq_nil. split; [done|].
  apply fmap_nil_inv in Hkeys. by apply elements_empty_inv, leibniz_equiv in Hkeys.
Qed.

Lemma scan_layers_prefix_clean (before after : Sequential Tensor Args) :
  msgs (scan_layers (before ++ after)) = [] →
  msgs (scan_layers before) = [].
Proof.
  unfold scan_layers. rewrite foldl_app. intros Hnil.
  destruct (scan_layers_msgs_grow (foldl scan_layer
              {| stashed := ∅; popped := ∅; msgs := [] |} before) after)
    as [new Hgrow].
  rewrite Hgrow in Hnil. by apply app_eq_nil in Hnil as [? _].
Qed.

Lemma scanned_in_sync (layers : Sequential Tensor Args) (s : Scan)
    (tracker : MapTracker) :
  scanned layers s →
  in_sync s tracker ↔
  ∀ key, key ∈ dom tracker ↔ stashed_in layers key ∧ ¬ popped_in layers key.
Proof.
  intros (Hst & Hpop & _). unfold in_sync. split.
  - intros [Hdom _] key. by rewrite Hdom, elem_of_difference, Hst, Hpop.
  - intros Hdom. split.
    + apply set_eq. intros key.
      by rewrite Hdom, elem_of_difference, Hst, Hpop.
    + intros key. rewrite Hst, Hpop. apply popped_in_stashed_in.
Qed.

(** X8: In a sequence that [verify_skippables] accepts, take a skippable
    layer and a tracker that holds the keys stashed and not yet popped by
    the layers before it. Then every key the layer pops is in the tracker,
    and a call of [forward] that returns leaves the tracker with the keys
    stashed and not yet popped by the layers up to and with this one. *)
Theorem verified_stage_finds_its_skips (before after : Sequential Tensor Args)
    (layer_name : string) (layer : Skippable) (tracker : MapTracker) :
  verify_skippables (before ++ (layer_name, Skip layer) :: after) = Ok tt →
  (∀ key, key ∈ dom tracker ↔
          stashed_in before key ∧ ¬ popped_in before key) →
  (∀ key, key ∈ poppable layer → is_Some (tracker !! key))
  ∧ ∀ input output tracker',
      forward layer input tracker = (Ok output, tracker') →
      ∀ key, key ∈ dom tracker' ↔
             stashed_in (before ++ [(layer_name, Skip layer)]) key
             ∧ ¬ popped_in (before ++ [(layer_name, Skip layer)]) key.
Proof.
  intros [Hclean _]%verify_ok_findings%findings_nil Hdom.
  change (before ++ (layer_name, Skip layer) :: after)
    with (before ++ [(layer_name, Skip layer)] ++ after) in Hclean.
  rewrite app_assoc in Hclean. apply scan_layers_prefix_clean in Hclean.
  pose proof (scan_layers_prefix_clean _ _ Hclean) as Hbefore.
  pose proof (scan_layers_scanned before) as Hscanned.
  pose proof (scan_layers_scanned (before ++ [(layer_name, Skip layer)]))
    as Hscanned'.
  unfold scan_layers in Hclean, Hscanned'. rewrite foldl_app in Hclean, Hscanned'.
  cbn [foldl] in Hclean, Hscanned'. fold (scan_layers before) in Hclean, Hscanned'.
  destruct (stage_keeps_sync (scan_layers before) layer_name layer tracker)
    as [Hpresent Hsync].
  { by apply (scanned_in_sync before). }
  { by rewrite Hclean, Hbefore. }
  split; [done|]. intros input output tracker' Hfwd.
  apply (scanned_in_sync _ _ _ Hscanned'). by apply (Hsync input output).
Qed.

(** The run of the stages from a tracker in sync with the scan. *)
Lemma run_stages_sync (children : list (string * Child Tensor Args))
    (s : Scan) (tracker : MapTracker) (input : TensorOrTensors) :
  let layers :=
    (λ child, (fst child, layer_of (stage (snd child)))) <$> children in
  in_sync s tracker →
  msgs (foldl scan_layer s layers) = msgs s →
  match run_stages children input tracker with
  | (Ok _, tracker') => in_sync (foldl scan_layer s layers) tracker'
  | (Raise e, _) => ¬ missing_skip e
  end.
Proof.
  cbv zeta. revert s tracker input.
  induction children as [|[name [id [layer|f]]] children IH];
    intros s tracker input Hsync Hsame.
  - done.
  - rewrite fmap_cons in *. cbn [foldl] in *.
    cbn [fst snd layer_of stage] in *.
    destruct (scan_layer_msgs_grow s (name, Skip layer)) as [new1 H1].
    destruct (scan_layers_msgs_grow (scan_layer s (name, Skip layer))
                ((λ child, (fst child, layer_of (stage (snd child))))
                   <$> children))
      as [new2 H2].
    assert (new1 = [] ∧ new2 = []) as [-> ->].
    { rewrite H2, H1, <-app_assoc in Hsame.
      by apply app_eq_self, app_eq_nil in Hsame. }
    rewrite app_nil_r in H1, H2.
    destruct (stage_keeps_sync s name layer tracker Hsync H1)
      as [Hpresent Hkeeps].
    simpl. unfold bind.
    destruct (forward layer input tracker) as [[output|e] tracker1] eqn:Hfwd.
    + apply IH; [by apply (Hkeeps input output)|done].
    + by apply (forward_raises_not_missing layer input tracker tracker1).
  - rewrite fmap_cons in *. cbn [foldl] in *.
    simpl. by apply IH.
Qed.

(** [named_children] yields every child when no object is placed twice. *)
Lemma named_children_from_distinct (memo : gset ref)
    (children : list (string * Child Tensor Args)) :
  NoDup ((λ child, identity (snd child)) <$> children) →
  (∀ child, child ∈ children → identity (snd child) ∉ memo) →
  named_children_from memo children = children.
Proof.
  revert memo. induction children as [|[name child] children IH];
    intros memo Hnd Hmemo; [done|].
  rewrite fmap_cons in Hnd. apply NoDup_cons in Hnd as [Hfresh Hnd].
  cbn [named_children_from snd] in *.
  rewrite decide_False by (apply (Hmemo (name, child)); left).
  f_equal. apply IH; [done|].
  intros child' Hin. rewrite elem_of_union, elem_of_singleton.
  intros [Heq|Hold].
  - apply Hfresh, list_elem_of_fmap. by exists child'.
  - by apply (Hmemo child'); [right|].
Qed.

(** X9: A sequence in which no module object is placed twice and that
    [verify_skippables] accepts, run stage after stage from an empty
    tracker, never fails for a missing skip ("has not been stashed"), and
    when the run returns the tracker is empty again: every stashed tensor
    was popped.  ([verify_skippables] sees an object that is placed several
    times once only, while every place is run.) *)
Theorem verified_run_finds_and_consumes
    (children : list (string * Child Tensor Args))
    (input : TensorOrTensors) :
  NoDup ((λ child, identity (snd child)) <$> children) →
  verify_skippables (layers_of children) = Ok tt →
  match run_stages children input ∅ with
  | (Ok _, tracker') => tracker' = ∅
  | (Raise e, _) => ¬ missing_skip e
  end.
Proof.
  intros Hnd. unfold layers_of, named_children.
  rewrite named_children_from_distinct; [|done|set_solver].
  intros [Hclean Hempty]%verify_ok_findings%findings_nil.
  unfold scan_layers in Hclean, Hempty.
  pose proof (run_stages_sync children
                {| stashed := ∅; popped := ∅; msgs := [] |} ∅ input) as Hrun.
  cbv zeta in Hrun.
  destruct (run_stages children input ∅) as [[output|e] tracker'].
  - destruct Hrun as [Hdom _]; [|done|].
    + split; [|done]. rewrite dom_empty_L. simpl. set_solver.
    + rewrite Hempty in Hdom. by apply dom_empty_inv_L.
  - apply Hrun; [|done]. split; [|done]. rewrite dom_empty_L. simpl.
    set_solver.
Qed.

(** An object that was yielded, or is placed before, is not yielded. *)
Lemma named_children_from_again (memo : gset ref)
    (before after : list (string * Child Tensor Args)) (name : string)
    (child : Child Tensor Args) :
  identity child ∈ memo
  ∨ identity child ∈ (λ child, identity (snd child)) <$> before →
  named_children_from memo (before ++ (name, child) :: after)
  = named_children_from memo (before ++ after).
Proof.
  revert memo. induction before as [|[name' child'] before IH];
    intros memo Hseen.
  - destruct Hseen as [Hmemo|Hin%elem_of_nil]; [|done].
    simpl. by rewrite decide_True.
  - rewrite fmap_cons, elem_of_cons in Hseen.
    cbn [app named_children_from snd] in *.
    destruct (decide (identity child' ∈ memo)) as [Hin|Hin].
    + apply IH. destruct Hseen as [?|[Heq|?]]; [by left| |by right].
      left. by rewrite Heq.
    + f_equal. apply IH. rewrite elem_of_union, elem_of_singleton.
      destruct Hseen as [?|[Heq|?]]; [left; by right|left; by left|by right].
Qed.

(** X19: [verify_skippables] scans a module object that is placed several
    times in the sequence at its first place only: with an object placed
    again after a place where it already is, the children that are scanned
    and the outcome of [verify_skippables] are those of the sequence without
    that further place. *)
Theorem repeated_object_is_scanned_once
    (before after : list (string * Child Tensor Args)) (name : string)
    (child : Child Tensor Args) :
  identity child ∈ (λ child, identity (snd child)) <$> before →
  layers_of (before ++ (name, child) :: after) = layers_of (before ++ after)
  ∧ verify_skippables (layers_of (before ++ (name, child) :: after))
    = verify_skippables (layers_of (before ++ after)).
Proof.
  intros Hin.
  assert (layers_of (before ++ (name, child) :: after)
          = layers_of (before ++ after)) as Heq.
  { unfold layers_of, named_children.
    rewrite named_children_from_again; [done|by right]. }
  by rewrite Heq.
Qed.

End VerifiedRun.

(** ** More on [isolate] *)

Section IsolateProperties.

Context {Tensor Args : Type}.

#[local] Abbreviation Skippable := (Skippable Tensor Args).

Lemma isolate_self_lookup (ns : Namespace) (only : option (list string))
    (self : Skippable) (name : string) :
  namespaces (isolate_self ns only self) !! name
  = if decide (name ∈ isolated_names self only) then Some ns
    else namespaces self !! name.
Proof.
  unfold isolate_self. rewrite set_namespaces_lookup.
  destruct (decide (name ∈ isolated_names self only)) as [Hin|Hin].
  - by rewrite decide_True by (by apply elem_of_elements).
  - by rewrite decide_False by (by rewrite elem_of_elements).
Qed.

Lemma isolate_self_class (ns : Namespace) (only : option (list string))
    (self : Skippable) :
  class_of (isolate_self ns only self) = class_of self.
Proof. apply set_namespaces_class. Qed.

(** X15: Calls of [isolate] compose: after two of them a name is in the
    namespace of the second if the second went through it, else in the
    namespace of the first if the first went through it, else where it was. *)
Theorem isolate_twice (ns1 ns2 : Namespace) (only1 only2 : option (list string))
    (self : Skippable) (name : string) :
  namespaced (isolate_self ns2 only2 (isolate_self ns1 only1 self)) name
  = (if decide (name ∈ isolated_names self only2) then Some ns2
     else if decide (name ∈ isolated_names self only1) then Some ns1
     else namespaces self !! name,
     name).
Proof.
  unfold namespaced. rewrite !isolate_self_lookup. f_equal.
  assert (isolated_names (isolate_self ns1 only1 self) only2
          = isolated_names self only2) as ->; [|done].
  unfold isolated_names. destruct only2; [done|].
  by rewrite isolate_self_class.
Qed.

(** X16: Two stages isolated, with all their names, into two different
    namespaces have no key in common, whatever names they declare: what one
    stashes or pops is never a slot of the other. *)
Theorem isolate_separates (ns1 ns2 : Namespace) (a b : Skippable)
    (key : SkipKey) :
  ns1 ≠ ns2 →
  key ∈ stashable (isolate_self ns1 None a)
        ++ poppable (isolate_self ns1 None a) →
  key ∉ stashable (isolate_self ns2 None b)
        ++ poppable (isolate_self ns2 None b).
Proof.
  intros Hne Ha Hb.
  assert (∀ ns (self : Skippable),
            key ∈ stashable (isolate_self ns None self)
                  ++ poppable (isolate_self ns None self) →
            fst key = Some ns) as Hfst.
  { intros ns self Hin.
    assert (snd key ∈ isolated_names self None
            ∧ namespaced (isolate_self ns None self) (snd key) = key)
      as [Hname Hkey].
    { rewrite elem_of_app, elem_of_stashable, elem_of_poppable in Hin.
      rewrite isolate_self_class in Hin. simpl.
      rewrite elem_of_union. naive_solver. }
    rewrite <-Hkey. unfold namespaced. simpl.
    by rewrite isolate_self_lookup, decide_True. }
  apply Hfst in Ha. apply Hfst in Hb. congruence.
Qed.

End IsolateProperties.

(** ** The benchmark: devices and batches *)

Module BenchmarkProperties.

Import Benchmark.

Lemma adjust_within (i len : Z) : (0 ≤ i ≤ len)%Z → adjust i len = i.
Proof. intros [? ?]. unfold adjust. case_decide; lia. Qed.

Lemma slice_within {A : Type} (l : list A) (start stop : Z) :
  (0 ≤ start ≤ stop)%Z → (stop ≤ Z.of_nat (length l))%Z →
  slice l start stop
  = take (Z.to_nat stop - Z.to_nat start) (drop (Z.to_nat start) l).
Proof.
  intros [? ?] ?. unfold slice. rewrite !adjust_within by lia.
  f_equal. lia.
Qed.

Lemma join_slices {A : Type} (l : list A) (n : nat) (k : nat) :
  k * n ≤ length l →
  mjoin ((λ rank : Z, slice l (rank * Z.of_nat n) ((rank + 1) * Z.of_nat n))
           <$> seqZ 0 (Z.of_nat k))
  = take (k * n) l.
Proof.
  induction k as [|k IH]; intros Hlen.
  - done.
  - rewrite seqZ_S, fmap_app, join_app, IH by lia. simpl.
    rewrite app_nil_r, Z.add_0_l, slice_within by lia.
    replace (Z.to_nat ((Z.of_nat k + 1) * Z.of_nat n)
             - Z.to_nat (Z.of_nat k * Z.of_nat n)) with n by lia.
    replace (Z.to_nat (Z.of_nat k * Z.of_nat n)) with (k * n) by lia.
    rewrite take_take_drop. f_equal. lia.
Qed.

(** X17: When the number of devices is a multiple of the number of
    pipelines, every rank gets [len(devices) // world_size] devices, and the
    devices of the ranks [0 .. world_size - 1], put one after the other, are
    the devices given: each device goes to one rank. *)
Theorem devices_are_shared_out {Device : Type} (world_size : Z)
    (devices : list Device) :
  (0 < world_size)%Z →
  (Z.of_nat (length devices) `mod` world_size = 0)%Z →
  let n := (Z.of_nat (length devices) `div` world_size)%Z in
  (∀ rank, (0 ≤ rank < world_size)%Z →
     devices_pipeline rank world_size devices
     = Returns (slice devices (rank * n) ((rank + 1) * n))
     ∧ Z.of_nat (length (slice devices (rank * n) ((rank + 1) * n))) = n)
  ∧ mjoin ((λ rank, slice devices (rank * n) ((rank + 1) * n))
             <$> seqZ 0 world_size)
    = devices.
Proof.
  intros Hw Hmod n.
  assert (Z.of_nat (length devices) = world_size * n)%Z as Hlen.
  { unfold n. rewrite (Z.div_mod (Z.of_nat (length devices)) world_size) at 1
      by lia. lia. }
  assert (0 ≤ n)%Z as Hn by (unfold n; apply Z.div_pos; lia).
  split.
  - intros rank [? ?]. split.
    + unfold devices_pipeline. rewrite decide_False by lia.
      by rewrite decide_False by (by intros ?).
    + rewrite slice_within by nia.
      rewrite length_take, length_drop. nia.
  - clearbody n. clear Hmod.
    assert (∃ n' : nat, n = Z.of_nat n') as [n' ->]
      by (exists (Z.to_nat n); lia).
    assert (∃ k : nat, world_size = Z.of_nat k) as [k ->]
      by (exists (Z.to_nat world_size); lia).
    rewrite join_slices by nia. apply take_ge. nia.
Qed.

Lemma data_trained_from {Row : Type} (data : list (list Row)) (acc : Z) :
  foldl (λ data_trained input, data_trained + Z.of_nat (length input))%Z
    acc data
  = (acc + data_trained data)%Z.
Proof.
  unfold data_trained. revert acc. induction data as [|input data IH];
    intros acc; simpl; [lia|].
  rewrite (IH (acc + _)%Z), (IH (0 + _)%Z). lia.
Qed.

Lemma data_trained_app {Row : Type} (data1 data2 : list (list Row)) :
  data_trained (data1 ++ data2)
  = (data_trained data1 + data_trained data2)%Z.
Proof.
  unfold data_trained at 1. rewrite foldl_app.
  fold (data_trained data1). apply data_trained_from.
Qed.

Lemma data_trained_replicate {Row : Type} (k : nat) (input : list Row) :
  data_trained (replicate k input)
  = (Z.of_nat k * Z.of_nat (length input))%Z.
Proof.
  induction k as [|k IH]; [done|].
  change (replicate (S k) input) with ([input] ++ replicate k input).
  rewrite data_trained_app, IH. unfold data_trained. simpl. lia.
Qed.

(** X18: For every positive batch size, the batches of one epoch have
    between one and [batch_size] rows each and [dataset_size] rows together:
    an epoch trains on 50000 samples whatever the batch size. *)
Theorem epoch_covers_dataset {Row : Type} (row : Row) (batch_size : Z) :
  (0 < batch_size)%Z →
  ∃ data,
    epoch_data row batch_size = Returns data
    ∧ data_trained data = dataset_size
    ∧ Forall (λ input, (0 < Z.of_nat (length input) ≤ batch_size)%Z) data.
Proof.
  intros Hb. unfold epoch_data.
  rewrite decide_False by lia. rewrite decide_False by lia.
  pose proof (Z.div_mod dataset_size batch_size ltac:(lia)) as Hdiv.
  pose proof (Z.mod_pos_bound dataset_size batch_size Hb) as Hmod.
  assert (0 ≤ dataset_size `div` batch_size)%Z as Hq
    by (apply Z.div_pos; unfold dataset_size; lia).
  set (input := replicate (Z.to_nat batch_size) row).
  assert (Z.of_nat (length input) = batch_size) as Hinput.
  { unfold input. rewrite length_replicate. lia. }
  case_decide as Hrem.
  - eexists. split; [done|]. split.
    + rewrite data_trained_app, data_trained_replicate, Hinput.
      unfold data_trained. simpl.
      rewrite slice_within by lia.
      rewrite length_take, length_drop. lia.
    + apply Forall_app. split.
      * apply Forall_replicate. lia.
      * apply Forall_singleton. rewrite slice_within by lia.
        rewrite length_take, length_drop. lia.
  - eexists. split; [done|]. split.
    + rewrite data_trained_replicate, Hinput. lia.
    + apply Forall_replicate. lia.
Qed.

End BenchmarkProperties.

(** ** The further properties on the example stages *)

Section OnMoreExamples.

Import Examples MoreExamples.

#[local] Abbreviation one := (OneTensor 1).
#[local] Abbreviation no_tensors := (∅ : gmap SkipKey (option nat)).

Ltac compute_it := apply (bool_decide_unpack _); by vm_compute.

Lemma forward_leaves_other_slots_witness :
  snd (forward (init Stash tt) one tracker_b) !! (None, "b")
  = tracker_b !! (None, "b").
Proof.
  apply (forward_leaves_other_slots (init Stash tt) one tracker_b (None, "b"));
    compute_it.
Defined.

Lemma forward_consumes_and_fills_witness :
  (∀ key, key ∈ poppable (init Pop tt) → key ∈ dom tracker_x)
  ∧ dom no_tensors
    = (dom tracker_x ∖ list_to_set (poppable (init Pop tt)))
      ∪ list_to_set (stashable (init Pop tt)).
Proof.
  apply (forward_consumes_and_fills (init Pop tt) one one tracker_x no_tensors).
  by vm_compute.
Defined.

Lemma second_pop_raises_key_error_witness :
  forward (init PopTwice tt) one tracker_x
  = (Raise (KeyError "x"), no_tensors).
Proof.
  apply (second_pop_raises_key_error (init PopTwice tt) one tracker_x
           no_tensors {[ "x" := Some 7 ]}
           (Yield (pop "x") (λ _, Yield (pop "x") (λ _, Return one)))
           "x" (λ _, Yield (pop "x") (λ _, Return one)) (λ _, Return one)
           {| stashed_tensors := ∅; poppable_tensors := {[ "x" := Some 7 ]} |}
           {| stashed_tensors := ∅; poppable_tensors := ∅ |}
           {| stashed_tensors := ∅; poppable_tensors := ∅ |}
           (Some 7)).
  - reflexivity.
  - reflexivity.
  - apply reaches_here.
  - by vm_compute.
  - apply reaches_here.
Defined.

Lemma other_yield_raises_type_error_witness :
  forward (init Chatty tt) one tracker_x
  = (Raise (TypeError "42 is not a command from @skippable"), tracker_x)
  ∧ forward (init Pairing tt) one tracker_x
    = (Raise (TypeError
                "not all arguments converted during string formatting"),
       tracker_x).
Proof.
  split.
  - apply (other_yield_raises_type_error (init Chatty tt) one tracker_x
             tracker_x ∅ (Yield (other (NotTuple "42")) (λ _, Return one))
             (NotTuple "42") (λ _, Return one)
             {| stashed_tensors := ∅; poppable_tensors := ∅ |}).
    + reflexivity.
    + reflexivity.
    + apply reaches_here.
  - apply (other_yield_raises_type_error (init Pairing tt) one tracker_x
             tracker_x ∅
             (Yield (other (Tuple ["1"; "2"])) (λ _, Return one))
             (Tuple ["1"; "2"]) (λ _, Return one)
             {| stashed_tensors := ∅; poppable_tensors := ∅ |}).
    + reflexivity.
    + reflexivity.
    + apply reaches_here.
Defined.

Lemma forward_without_yield_returns_iff_witness :
  (∃ output' tracker',
     forward (init Idle tt) one tracker_b = (Ok output', tracker'))
  ↔ stashable_names (class_of (init Idle tt)) = ∅
    ∧ poppable_names (class_of (init Idle tt)) = ∅.
Proof.
  apply (forward_without_yield_returns_iff (init Idle tt) one one tracker_b).
  left. reflexivity.
Defined.

Lemma last_stash_is_saved_witness :
  forward (init StashTwice tt) one no_tensors
  = (Ok one, <[namespaced (init StashTwice tt) "x" := Some 2]> no_tensors).
Proof.
  apply (last_stash_is_saved (init StashTwice tt) one one "x"
           (Some 1) (Some 2) no_tensors); reflexivity.
Defined.

Lemma stash_then_pop_round_trip_witness :
  forward (init Stash tt) one no_tensors
  = (Ok one, <[namespaced (init Stash tt) "x" := Some 1]> no_tensors)
  ∧ forward (init Pop tt) (OneTensor 2)
      (<[namespaced (init Stash tt) "x" := Some 1]> no_tensors)
    = (Ok (OneTensor 2), delete (namespaced (init Stash tt) "x") no_tensors).
Proof.
  apply (stash_then_pop_round_trip (init Stash tt) (init Pop tt) one one
           (OneTensor 2) "x" (Some 1) (λ _, OneTensor 2) no_tensors);
    reflexivity.
Defined.

Lemma verify_ignores_undeclaring_witness :
  verify_skippables
    ([("0", Skip (init Stash tt))] ++ [("1", Plain)]
       ++ [("2", Skip (init Pop tt))])
  = verify_skippables
      ([("0", Skip (init Stash tt))] ++ [("2", Skip (init Pop tt))]).
Proof.
  apply (verify_ignores_undeclaring [("0", Skip (init Stash tt))]
           [("1", Plain)] [("2", Skip (init Pop tt))]).
  by repeat constructor.
Defined.

Lemma verify_accepts_only_matched_witness :
  (∀ key, stashed_in matched key → popped_in matched key)
  ∧ ∀ before layer_name layer after,
      matched = before ++ (layer_name, Skip layer) :: after →
      stashable_names (class_of layer) ∩ poppable_names (class_of layer) = ∅
      ∧ (∀ key, stashes layer key → ¬ stashed_in before key)
      ∧ (∀ key, pops layer key →
                stashed_in before key ∧ ¬ popped_in before key).
Proof. apply (verify_accepts_only_matched matched). by vm_compute. Defined.

Lemma verify_rejects_unisolated_twins_witness :
  ∃ msg,
    verify_skippables twins = Raise (TypeError msg)
    ∧ mentions (msg_restashed "1" "x") msg.
Proof.
  apply (verify_rejects_unisolated_twins [] [] [] "0" "1" "x"
           (init Stash tt) (init Stash tt));
    try apply as_initialised; compute_it.
Defined.

Lemma verify_rejects_pop_before_stash_witness :
  verify_skippables backwards
  = Raise (TypeError
             (verify_message [msg_not_stashed "0" "x"; msg_not_popped "x"])).
Proof.
  apply (verify_rejects_pop_before_stash [] [] [] "1" "0" "x"
           (init Stash tt) (init Pop tt));
    try reflexivity; constructor.
Defined.

Lemma verify_accepts_isolated_pairs_witness :
  verify_skippables isolated = Ok tt.
Proof.
  apply (verify_accepts_isolated_pairs [] [] [] [] [] "0" "1" "2" "3" "x"
           (isolate_self 1%positive None (init Stash tt))
           (isolate_self 2%positive None (init Stash tt))
           (isolate_self 2%positive None (init Pop tt))
           (isolate_self 1%positive None (init Pop tt)));
    try reflexivity; try constructor.
  by vm_compute.
Defined.

Lemma verified_stage_finds_its_skips_witness :
  (∀ key, key ∈ poppable (init Stash tt) → is_Some (no_tensors !! key))
  ∧ ∀ input output tracker',
      forward (init Stash tt) input no_tensors = (Ok output, tracker') →
      ∀ key, key ∈ dom tracker' ↔
             stashed_in ([] ++ [("0", Skip (init Stash tt))]) key
             ∧ ¬ popped_in ([] ++ [("0", Skip (init Stash tt))]) key.
Proof.
  apply (verified_stage_finds_its_skips []
           [("1", Plain); ("2", Skip (init Pop tt))] "0" (init Stash tt)
           no_tensors).
  - by vm_compute.
  - intros key. split.
    + by intros ?%not_elem_of_empty.
    + by intros [(? & ? & ?%elem_of_nil & _) _].
Defined.

Lemma verified_run_finds_and_consumes_witness :
  match run_stages stages one ∅ with
  | (Ok _, tracker') => tracker' = ∅
  | (Raise e, _) => ¬ missing_skip e
  end.
Proof.
  apply (verified_run_finds_and_consumes stages one).
  - apply (bool_decide_unpack _). by vm_compute.
  - by vm_compute.
Defined.

(** [nn.Sequential(s, p, s)] with one object [s] is scanned as
    [nn.Sequential(s, p)] and accepted, and its run leaves the tensor that
    [s] stashed at its second place. *)
Lemma repeated_object_is_scanned_once_witness :
  (layers_of repeated
   = layers_of
       [("0", {| identity := 1%positive;
                 stage := SkippableStage (init Stash tt) |});
        ("1", {| identity := 2%positive;
                 stage := SkippableStage (init Pop tt) |})]
   ∧ verify_skippables (layers_of repeated)
     = verify_skippables
         (layers_of
            [("0", {| identity := 1%positive;
                      stage := SkippableStage (init Stash tt) |});
             ("1", {| identity := 2%positive;
                      stage := SkippableStage (init Pop tt) |})]))
  ∧ verify_skippables (layers_of repeated) = Ok tt
  ∧ run_stages repeated one ∅ = (Ok one, {[ (None, "x") := Some 1 ]}).
Proof.
  split; [|by vm_compute].
  apply (repeated_object_is_scanned_once
           [("0", {| identity := 1%positive;
                     stage := SkippableStage (init Stash tt) |});
            ("1", {| identity := 2%positive;
                     stage := SkippableStage (init Pop tt) |})]
           [] "2"
           {| identity := 1%positive;
              stage := SkippableStage (init Stash tt) |}).
  apply (bool_decide_unpack _). by vm_compute.
Defined.

Lemma isolate_separates_witness :
  (Some 1%positive, "x")
    ∉ stashable (isolate_self 2%positive None (init Pop tt))
      ++ poppable (isolate_self 2%positive None (init Pop tt)).
Proof.
  apply (isolate_separates 1%positive 2%positive (init Stash tt)
           (init Pop tt) (Some 1%positive, "x")).
  - done.
  - compute_it.
Defined.

Lemma devices_are_shared_out_witness :
  let n := (Z.of_nat (length [0; 1; 2; 3]) `div` 2)%Z in
  (∀ rank, (0 ≤ rank < 2)%Z →
     Benchmark.devices_pipeline rank 2 [0; 1; 2; 3]
     = Benchmark.Returns
         (Benchmark.slice [0; 1; 2; 3] (rank * n) ((rank + 1) * n))
     ∧ Z.of_nat (length (Benchmark.slice [0; 1; 2; 3] (rank * n)
                           ((rank + 1) * n))) = n)
  ∧ mjoin ((λ rank, Benchmark.slice [0; 1; 2; 3] (rank * n) ((rank + 1) * n))
             <$> seqZ 0 2)
    = [0; 1; 2; 3].
Proof.
  apply (BenchmarkProperties.devices_are_shared_out 2 [0; 1; 2; 3]).
  - lia.
  - reflexivity.
Defined.

Lemma epoch_covers_dataset_witness :
  ∃ data,
    Benchmark.epoch_data tt 118 = Benchmark.Returns data
    ∧ Benchmark.data_trained data = Benchmark.dataset_size
    ∧ Forall (λ input, (0 < Z.of_nat (length input) ≤ 118)%Z) data.
Proof. apply (BenchmarkProperties.epoch_covers_dataset tt 118). lia. Defined.

End OnMoreExamples.
